(** * Enhanced Tag Switcher: a shallow embedding of [src/main.ts]

    The plugin intercepts a click on a hashtag, locates the tag under the
    cursor ([handleTagClick]), builds a ranked candidate list
    ([loadAllTags]), filters it while the user types ([getSuggestions]) and
    finally rewrites the document and the recency list
    ([onChooseSuggestion], [updateRecentlyChosenTags]).

    JavaScript strings are modelled as [string]: sequences of code units,
    here restricted to the 8-bit range.  Columns, indices and lengths are
    JavaScript numbers holding integers and are modelled in [Z], so that
    the [-1] results of [indexOf] read as in the source. *)

From Stdlib Require Import ZArith Lia List Ascii.
From Stdlib Require String.
From Stdlib Require Import Sorting.Sorted Sorting.Permutation.
From stdpp Require Import base gmap sets list strings.

Local Open Scope Z_scope.

(** ** String primitives of the JavaScript runtime *)

Module JsString.

(** [s.length] *)
Definition length (s : string) : Z := Z.of_nat (String.length s).

(** [s.substring(0, n)] and [s.substring(n)] for a natural [n]. *)
Fixpoint take (n : nat) (s : string) : string :=
  match n, s with
  | S k, String c r => String c (take k r)
  | _, _ => EmptyString
  end.

Fixpoint drop (n : nat) (s : string) : string :=
  match n, s with
  | S k, String _ r => drop k r
  | _, _ => s
  end.

(** [s.startsWith(p)] *)
Definition startsWith (s p : string) : bool := String.prefix p s.

(** The search loop of [indexOf]: [s] is the part of the text that begins
    at offset [pos]; the answer is the offset of the first occurrence of
    [sub] at or after [pos], or [-1]. *)
Fixpoint indexOf_from (s sub : string) (pos : Z) : Z :=
  match s with
  | EmptyString => if String.prefix sub EmptyString then pos else -1
  | String _ r =>
      if String.prefix sub s then pos else indexOf_from r sub (pos + 1)
  end.

(** [s.indexOf(sub, fromIndex)]: the start is clamped to [0 .. s.length]. *)
Definition indexOf (s sub : string) (fromIndex : Z) : Z :=
  let k := Z.min (Z.max fromIndex 0) (length s) in
  indexOf_from (drop (Z.to_nat k) s) sub k.

(** [s.includes(sub)] *)
Definition includes (s sub : string) : bool :=
  negb (indexOf s sub 0 =? -1).

Definition charCode (c : ascii) : Z := Z.of_N (N_of_ascii c).

Definition inRange (lo hi : Z) (c : ascii) : bool :=
  (lo <=? charCode c) && (charCode c <=? hi).

(** Case mapping of one code unit below 256: [A-Z] and the Latin-1
    capitals U+00C0..U+00DE (without the multiplication sign U+00D7) move
    up by 32, every other code unit is its own lower case. *)
Definition lowerChar (c : ascii) : ascii :=
  if inRange 65 90 c
     || (inRange 192 222 c && negb (charCode c =? 215))
  then ascii_of_N (Z.to_N (charCode c + 32))
  else c.

(** [s.toLowerCase()] *)
Fixpoint toLowerCase (s : string) : string :=
  match s with
  | EmptyString => EmptyString
  | String c r => String (lowerChar c) (toLowerCase r)
  end.

End JsString.

(** ** The two regular expressions of [handleTagClick] *)

Module TagRegExp.

Import JsString.

(** [\w] without the [u] and [i] flags: [A-Za-z0-9_]. *)
Definition isWordChar (c : ascii) : bool :=
  inRange 97 122 c || inRange 65 90 c || inRange 48 57 c
  || (charCode c =? 95).

(** The class [[\w\/-]]. *)
Definition isTagChar (c : ascii) : bool :=
  isWordChar c || (charCode c =? 47) || (charCode c =? 45).

(** Greedy [[\w\/-]*] at the head of [s]: the longest run of class
    characters. Nothing follows the quantifier in either pattern, so the
    engine never backtracks into it. *)
Fixpoint tagChars (s : string) : string :=
  match s with
  | String c r => if isTagChar c then String c (tagChars r) else EmptyString
  | EmptyString => EmptyString
  end.

(** One attempt of [/#[\w\/-]+/] with the match anchored at the head of
    [s]. *)
Definition execTagAt (s : string) : option string :=
  match s with
  | String c r =>
      if (charCode c =? 35) then
        match tagChars r with
        | EmptyString => None
        | body => Some (String c body)
        end
      else None
  | EmptyString => None
  end.

(** One attempt of [/#[\w\/-]*/] anchored at the head of [s]. *)
Definition execPartialAt (s : string) : option string :=
  match s with
  | String c r =>
      if (charCode c =? 35) then Some (String c (tagChars r)) else None
  | EmptyString => None
  end.

(** The global scan of [/#[\w\/-]+/g]: every match with its index, left
    to right. [s] is the text from offset [pos] on; [skip] counts the
    characters of the previous match still to be stepped over before the
    next attempt (the engine resumes at [lastIndex], the end of the
    previous match). *)
Fixpoint scan (skip : nat) (pos : Z) (s : string) : list (Z * string) :=
  match s with
  | EmptyString => []
  | String _ r =>
      match skip with
      | S k => scan k (pos + 1) r
      | O =>
          match execTagAt s with
          | Some m => (pos, m) :: scan (String.length m - 1) (pos + 1) r
          | None => scan 0 (pos + 1) r
          end
      end
  end.

(** All matches of the full tag pattern on a line, as (index, text). *)
Definition matchAll (line : string) : list (Z * string) := scan 0 0 line.

(** [line.match(/#[\w\/-]+/g)]: the matched texts only, [null] when there
    is none. *)
Definition match_g (line : string) : option (list string) :=
  match matchAll line with
  | [] => None
  | ms => Some (map snd ms)
  end.

(** [line.match(/#[\w\/-]*/)] (no [g] flag): the first match with its
    [index], or [null]. *)
Fixpoint search_partial (pos : Z) (s : string) : option (Z * string) :=
  match s with
  | EmptyString => None
  | String _ r =>
      match execPartialAt s with
      | Some m => Some (pos, m)
      | None => search_partial (pos + 1) r
      end
  end.

Definition match_partial (line : string) : option (Z * string) :=
  search_partial 0 line.

End TagRegExp.

(** ** The host editor *)

Record EditorPosition := { line : Z; ch : Z }.

Record TagPosition := { from : EditorPosition; to : EditorPosition }.

(** The part of the host's abstract [Editor] the plugin calls. A mutating
    call may throw; [None] stands for the exception. *)
Class Editor (E : Type) := {
  getCursor : E -> EditorPosition;
  getLine : Z -> E -> string;
  replaceRange : string -> EditorPosition -> EditorPosition -> E -> option E;
  setCursor : EditorPosition -> E -> option E
}.

(** ** [MyPlugin.handleTagClick] *)

(** The [for (const tag of tagMatch)] loop (lines 65-83): the result is the
    final value of [(tagStart, tagEnd)]. *)
Fixpoint findClickedTag (lineText : string) (cursor_ch : Z) (searchFrom : Z)
    (tagMatch : list string) : Z * Z :=
  match tagMatch with
  | [] => (-1, -1)
  | tag :: rest =>
      let tagIndex := JsString.indexOf lineText tag searchFrom in
      if negb (tagIndex =? -1) then
        let tagStartPos := tagIndex in
        let tagEndPos := tagIndex + JsString.length tag in
        if (cursor_ch >=? tagStartPos) && (cursor_ch <=? tagEndPos)
        then (tagStartPos, tagEndPos)
        else findClickedTag lineText cursor_ch tagEndPos rest
      else findClickedTag lineText cursor_ch searchFrom rest
  end.

(** The locator proper (lines 60-109), on the text of the cursor's line
    and the cursor's column: the columns of the span handed to the modal,
    if one is opened. *)
Definition locate (lineText : string) (cursor_ch : Z) : option (Z * Z) :=
  match TagRegExp.match_g lineText with
  | Some tagMatch =>
      let '(tagStart, tagEnd) := findClickedTag lineText cursor_ch 0 tagMatch in
      if negb (tagStart =? -1) && negb (tagEnd =? -1)
      then Some (tagStart, tagEnd)
      else None
  | None =>
      match TagRegExp.match_partial lineText with
      | Some (index, m0) => Some (index, index + JsString.length m0)
      | None => None
      end
  end.

(** [handleTagClick]: [activeView] is the active Markdown view's editor, if
    any. The result is the [tagPosition] with which a [TagSelectorModal] is
    opened; [None] means that the handler returns without any action. *)
Definition handleTagClick {E : Type} `{Editor E} (activeView : option E)
    : option TagPosition :=
  match activeView with
  | None => None
  | Some editor =>
      let cursor := getCursor editor in
      let lineText := getLine (line cursor) editor in
      match locate lineText (ch cursor) with
      | Some (tagStart, tagEnd) =>
          Some {| from := {| line := line cursor; ch := tagStart |};
                  to := {| line := line cursor; ch := tagEnd |} |}
      | None => None
      end
  end.

(** ** Array primitives of the JavaScript runtime, on arrays of strings *)

Module JsArray.

Definition length (l : list string) : Z := Z.of_nat (List.length l).

Fixpoint indexOf_from (l : list string) (x : string) (pos : Z) : Z :=
  match l with
  | [] => -1
  | y :: r => if String.eqb y x then pos else indexOf_from r x (pos + 1)
  end.

(** [l.indexOf(x)] *)
Definition indexOf (l : list string) (x : string) : Z := indexOf_from l x 0.

(** [l.includes(x)] *)
Definition includes (l : list string) (x : string) : bool :=
  existsb (String.eqb x) l.

(** [l.splice(start, 1)] for [0 <= start]: the array after the call. *)
Definition splice1 (l : list string) (start : Z) : list string :=
  firstn (Z.to_nat start) l ++ skipn (S (Z.to_nat start)) l.

(** [l.push(x)], [l.shift()] and [l.unshift(x)]: the array after the
    call. *)
Definition push (l : list string) (x : string) : list string := l ++ [x].
Definition shift (l : list string) : list string := tl l.
Definition unshift (l : list string) (x : string) : list string := x :: l.

(** [l.sort(comparefn)]. The language requires the sort to be stable, so
    for a consistent comparator the result is the one of any stable
    sort; it is computed here by insertion from the right. *)
Section Sort.

Variable comparefn : string -> string -> Z.

Fixpoint insert (x : string) (l : list string) : list string :=
  match l with
  | [] => [x]
  | y :: r => if comparefn x y >? 0 then y :: insert x r else x :: y :: r
  end.

Definition sort (l : list string) : list string := fold_right insert [] l.

End Sort.

End JsArray.

(** ** Plugin state *)

Record MyPluginSettings := { recentlyChosenTags : list string }.

Definition DEFAULT_SETTINGS : MyPluginSettings :=
  {| recentlyChosenTags := [] |}.

(** [settings] is the one settings object shared by the plugin and every
    modal; [savedData] is what was last handed to the host's [saveData]. *)
Record MyPlugin := {
  settings : MyPluginSettings;
  savedData : option MyPluginSettings
}.

Definition saveSettings (p : MyPlugin) : MyPlugin :=
  {| settings := settings p; savedData := Some (settings p) |}.

Definition CLEAR_TAG : string := "CLEAR_TAG".

(** ** [TagSelectorModal.loadAllTags] *)

(** The object returned by the host's [getTags()]: tag name to count, in
    the enumeration order of its keys. *)
Definition TagsObject : Type := list (string * Z).

Definition Object_keys (o : TagsObject) : list string := map fst o.

(** [allVaultTags] of [loadAllTags] (lines 153-157); [None] is a missing
    (falsy) result of [getTags()]. *)
Definition allVaultTags (allTagsObject : option TagsObject) : list string :=
  match allTagsObject with
  | Some o =>
      map (fun tag => if JsString.startsWith tag "#" then tag else "#" +:+ tag)
          (Object_keys o)
  | None => []
  end.

Section Catalog.

(** [a.localeCompare(b)] depends on the host's locale and collation
    tables; it is a parameter of the embedding. *)
Variable localeCompare : string -> string -> Z.

(** The value of [this.allTags] when [loadAllTags] returns. *)
Definition loadAllTags (allTagsObject : option TagsObject)
    (recentlyChosen : list string) : list string :=
  let allVaultTags := allVaultTags allTagsObject in
  let recentTags := rev recentlyChosen in
  let vaultTagSet : gset string := list_to_set allVaultTags in
  let validRecentTags :=
    List.filter (fun tag => bool_decide (tag ∈ vaultTagSet)) recentTags in
  let remainingTags :=
    JsArray.sort (fun a b => localeCompare a b)
      (List.filter (fun tag => negb (JsArray.includes validRecentTags tag))
         allVaultTags) in
  let allTags := validRecentTags ++ remainingTags in
  JsArray.unshift allTags CLEAR_TAG.

End Catalog.

(** ** [TagSelectorModal.getSuggestions] *)

Definition getSuggestions (allTags : list string) (query : string)
    : list string :=
  let queryLower := JsString.toLowerCase query in
  if String.eqb query "" then allTags
  else
    let filteredTags :=
      List.filter
        (fun tag => negb (String.eqb tag CLEAR_TAG)
                    && JsString.includes (JsString.toLowerCase tag) queryLower)
        allTags in
    if JsString.includes "clear" queryLower
       || JsString.includes "remove" queryLower
       || JsString.includes "delete" queryLower
    then CLEAR_TAG :: filteredTags
    else filteredTags.

(** ** [TagSelectorModal.updateRecentlyChosenTags] *)

(** The in-place updates of the [recentTags] array (lines 239-253). *)
Definition updateRecentTags (recentTags : list string) (tag : string)
    : list string :=
  let existingIndex := JsArray.indexOf recentTags tag in
  let recentTags :=
    if existingIndex >? -1 then JsArray.splice1 recentTags existingIndex
    else recentTags in
  let recentTags := JsArray.push recentTags tag in
  if JsArray.length recentTags >? 20 then JsArray.shift recentTags
  else recentTags.

Definition updateRecentlyChosenTags (tag : string) (p : MyPlugin) : MyPlugin :=
  saveSettings
    {| settings :=
         {| recentlyChosenTags :=
              updateRecentTags (recentlyChosenTags (settings p)) tag |};
       savedData := savedData p |}.

(** ** [TagSelectorModal.onChooseSuggestion] *)

(** What a modal's methods act on: the editor and the plugin it was
    constructed with, both shared with the rest of the program. *)
Record Session (E : Type) := { editor : E; plugin : MyPlugin }.
Arguments editor {E} _.
Arguments plugin {E} _.

(** A statement either completes or throws; the state is the one reached
    when it stops. *)
Inductive Completion := Normal | Throw.

Definition Js (S : Type) : Type := S -> Completion * S.

Definition seq {S : Type} (a b : Js S) : Js S :=
  fun s => match a s with
           | (Normal, s') => b s'
           | (Throw, s') => (Throw, s')
           end.

Declare Scope js_scope.
Delimit Scope js_scope with js.
Notation "a ;; b" := (seq a b)
  (at level 100, b at level 200, right associativity) : js_scope.

Definition callEditor {E : Type} (f : E -> option E) : Js (Session E) :=
  fun s => match f (editor s) with
           | Some e' => (Normal, {| editor := e'; plugin := plugin s |})
           | None => (Throw, s)
           end.

Definition callPlugin {E : Type} (f : MyPlugin -> MyPlugin) : Js (Session E) :=
  fun s => (Normal, {| editor := editor s; plugin := f (plugin s) |}).

Definition onChooseSuggestion {E : Type} `{Editor E}
    (tagPosition : TagPosition) (tag : string) : Js (Session E) :=
  (if String.eqb tag CLEAR_TAG then
     callEditor (replaceRange "" (from tagPosition) (to tagPosition)) ;;
     callEditor (setCursor (from tagPosition))
   else
     callEditor (replaceRange tag (from tagPosition) (to tagPosition)) ;;
     (let newCursorPos :=
        {| line := line (from tagPosition);
           ch := ch (from tagPosition) + JsString.length tag |} in
      callEditor (setCursor newCursorPos)) ;;
     callPlugin (updateRecentlyChosenTags tag))%js.

(** ** A plain text buffer as the host editor *)

(** The document is one string with line feeds between the lines; a
    position is turned into an offset as the host's [posToOffset] does,
    clipped to the line and to the document. *)
Record TextBuffer := { text : string; cursor : EditorPosition }.

Definition isLineFeed (c : ascii) : bool := JsString.charCode c =? 10.

Fixpoint splitLines (s : string) : list string :=
  match s with
  | EmptyString => [EmptyString]
  | String c r =>
      if isLineFeed c then EmptyString :: splitLines r
      else match splitLines r with
           | l :: ls => String c l :: ls
           | [] => [String c EmptyString]
           end
  end.

Fixpoint lineOffset (lines : list string) (n : nat) (col : Z) (acc : Z) : Z :=
  match lines with
  | [] => acc
  | l :: rest =>
      match n with
      | O => acc + Z.min (Z.max col 0) (JsString.length l)
      | S k => lineOffset rest k col (acc + JsString.length l + 1)
      end
  end.

Definition posToOffset (p : EditorPosition) (t : string) : Z :=
  if line p <? 0 then 0
  else Z.min (lineOffset (splitLines t) (Z.to_nat (line p)) (ch p) 0)
             (JsString.length t).

(** The host's [getRange(from, to)]. *)
Definition getRange (a b : EditorPosition) (t : string) : string :=
  JsString.take (Z.to_nat (posToOffset b t - posToOffset a t))
    (JsString.drop (Z.to_nat (posToOffset a t)) t).

#[export] Instance TextBuffer_Editor : Editor TextBuffer := {
  getCursor b := cursor b;
  getLine n b := if n <? 0 then EmptyString
                 else nth (Z.to_nat n) (splitLines (text b)) EmptyString;
  replaceRange t a b buf :=
    Some {| text :=
              JsString.take (Z.to_nat (posToOffset a (text buf))) (text buf)
              +:+ t
              +:+ JsString.drop (Z.to_nat (posToOffset b (text buf))) (text buf);
            cursor := cursor buf |};
  setCursor p buf := Some {| text := text buf; cursor := p |}
}.

(** A buffer in a read-only view: every mutation of the text throws. *)
Record ReadOnlyBuffer := { frozen : TextBuffer }.

#[export] Instance ReadOnlyBuffer_Editor : Editor ReadOnlyBuffer := {
  getCursor b := cursor (frozen b);
  getLine n b := getLine n (frozen b);
  replaceRange _ _ _ _ := None;
  setCursor p b :=
    Some {| frozen := {| text := text (frozen b); cursor := p |} |}
}.

(** * Notions used to state the properties *)

(** The column range of a match: start, and start plus length. *)
Definition spanOf (m : Z * string) : Z * Z :=
  (fst m, fst m + JsString.length (snd m)).

(** The spans of the full tag-pattern matches of a line, left to right. *)
Definition tagSpans (lineText : string) : list (Z * Z) :=
  map spanOf (TagRegExp.matchAll lineText).

(** The cursor column lies in the closed range of the span. *)
Definition contains (col : Z) (sp : Z * Z) : bool :=
  (fst sp <=? col) && (col <=? snd sp).

(** A text the full pattern can match: [#] and at least one class
    character. *)
Definition wfTag (m : string) : Prop :=
  exists c d body,
    m = String c (String d body)
    /\ JsString.charCode c = 35 /\ TagRegExp.isTagChar d = true.

(** Matches come in order and do not overlap: each starts at or after
    the end of the one before it and is not empty. *)
Fixpoint chained (lo : Z) (spans : list (Z * Z)) : Prop :=
  match spans with
  | [] => True
  | sp :: rest => lo <= fst sp /\ fst sp < snd sp /\ chained (snd sp) rest
  end.

(** A list in the order of a comparator: each entry compares as less than or
    equal to every later one. *)
Definition sortedBy (comparefn : string -> string -> Z) : list string -> Prop :=
  StronglySorted (fun a b => comparefn a b <= 0).

(** The recency part of the catalog: the recency list, most recent first,
    without the tags that are not in the vault. *)
Definition keptRecent (vault recency : list string) : list string :=
  List.filter (fun tag => bool_decide (tag ∈ vault)) (rev recency).

(** The vault tags that are not in the recency part. *)
Definition remainder (vault recent : list string) : list string :=
  List.filter (fun tag => bool_decide (tag ∉ recent)) vault.

(** [sub] occurs in [s]. *)
Definition isSubstring (sub s : string) : Prop :=
  exists pre post, s = pre +:+ sub +:+ post.

(** The query, lower-cased, occurs in one of the three keywords. *)
Definition clearIntent (query : string) : Prop :=
  exists kw, kw ∈ ["clear"; "remove"; "delete"]
             /\ isSubstring (JsString.toLowerCase query) kw.

(** The entry is not the sentinel and holds the query, case ignored. *)
Definition matchesQuery (query tag : string) : bool :=
  negb (String.eqb tag CLEAR_TAG)
  && JsString.includes (JsString.toLowerCase tag) (JsString.toLowerCase query).

(** The recency list of a plugin. *)
Definition recentOf (p : MyPlugin) : list string :=
  recentlyChosenTags (settings p).

(** The plugin after a run of applier invocations on a session. *)
Definition runChoices {E : Type} `{Editor E}
    (choices : list (TagPosition * string)) (s : Session E) : Session E :=
  fold_left (fun s c => snd (onChooseSuggestion (fst c) (snd c) s)) choices s.

(** Comparison by code units, as a comparator. *)
Definition codeUnitCompare (a b : string) : Z :=
  match String.compare a b with
  | Lt => -1
  | Eq => 0
  | Gt => 1
  end.

(** Fixtures of the scenarios. *)
Definition mkPos (l c : Z) : EditorPosition := {| line := l; ch := c |}.

Definition mkSpan (l a b : Z) : TagPosition :=
  {| from := mkPos l a; to := mkPos l b |}.

Definition mkSession (t : string) (cur : EditorPosition) (recent : list string)
    : Session TextBuffer :=
  {| editor := {| text := t; cursor := cur |};
     plugin := {| settings := {| recentlyChosenTags := recent |};
                  savedData := None |} |}.

(** * The rest of the plugin *)

(** ** [MyPlugin.isTagElement] and the click listener of [onload] *)

(** What the listener reads of a DOM element. *)
Record HTMLElement := {
  classList : list string;
  tagName : string;
  attributes : gmap string string
}.

Definition getAttribute (name : string) (element : HTMLElement)
    : option string :=
  attributes element !! name.

Definition hasAttribute (name : string) (element : HTMLElement) : bool :=
  bool_decide (is_Some (attributes element !! name)).

Definition isTagElement (element : HTMLElement) : bool :=
  JsArray.includes (classList element) "tag"
  || JsArray.includes (classList element) "cm-hashtag"
  || (String.eqb (tagName element) "A"
      && match getAttribute "href" element with
         | Some href => JsString.startsWith href "#"
         | None => false
         end)
  || hasAttribute "data-tag" element.

(** A click event: its target and what the handlers have asked for. *)
Record MouseEvent := {
  target : HTMLElement;
  defaultPrevented : bool;
  propagationStopped : bool
}.

(** The listener registered in [onload] (lines 21-32): the event after the
    listener has run, and the span of the modal it opened, if any. *)
Definition onDocumentClick {E : Type} `{Editor E} (activeView : option E)
    (evt : MouseEvent) : MouseEvent * option TagPosition :=
  if isTagElement (target evt) then
    ({| target := target evt;
        defaultPrevented := true;
        propagationStopped := true |},
     handleTagClick activeView)
  else (evt, None).

(** ** [MyPlugin.loadSettings] *)

(** What the host's [loadData()] resolves to: nothing when no data was ever
    saved, otherwise the stored object, which may lack the field. *)
Record StoredData := { stored_recentlyChosenTags : option (list string) }.

(** [Object.assign({}, DEFAULT_SETTINGS, data)] *)
Definition loadSettings (data : option StoredData) : MyPluginSettings :=
  match data with
  | Some {| stored_recentlyChosenTags := Some tags |} =>
      {| recentlyChosenTags := tags |}
  | _ => DEFAULT_SETTINGS
  end.

(** The plugin when [onload] has loaded its settings. *)
Definition onload (data : option StoredData) : MyPlugin :=
  {| settings := loadSettings data; savedData := None |}.

(** The host's data file after a session that began with [data] on disk:
    the last object handed to [saveData], serialised, or [data] itself
    when nothing was saved. *)
Definition dataOnDisk (data : option StoredData) (p : MyPlugin)
    : option StoredData :=
  match savedData p with
  | Some s =>
      Some {| stored_recentlyChosenTags := Some (recentlyChosenTags s) |}
  | None => data
  end.

(** ** The button of [EnhancedTagSwitcherSettingTab.display] *)

(** The [onClick] of the button (lines 282-286). *)
Definition clearRecentlyUsed (p : MyPlugin) : MyPlugin :=
  saveSettings {| settings := {| recentlyChosenTags := [] |};
                  savedData := savedData p |}.

(** What the user does to a session: a choice in a modal, or the button of
    the settings tab. *)
Inductive UiEvent :=
  | Choose (tagPosition : TagPosition) (tag : string)
  | ClearRecentlyUsed.

Definition uiStep {E : Type} `{Editor E} (s : Session E) (ev : UiEvent)
    : Session E :=
  match ev with
  | Choose tagPosition tag => snd (onChooseSuggestion tagPosition tag s)
  | ClearRecentlyUsed =>
      {| editor := editor s; plugin := clearRecentlyUsed (plugin s) |}
  end.

Definition runEvents {E : Type} `{Editor E} (events : list UiEvent)
    (s : Session E) : Session E :=
  fold_left uiStep events s.

(** ** [TagSelectorModal.renderSuggestion] *)

(** The prefix of the template literal of line 207: the code units U+00E2
    and U+00AD and a space. *)
Definition recentMark : string :=
  String (ascii_of_nat 226) (String (ascii_of_nat 173) " ").

Section Render.

(** The literal of line 203 holds code units above 255; it is a parameter
    here. *)
Variable clearLabel : string.

(** The text of the [div] that [renderSuggestion] creates. *)
Definition renderSuggestion (recentlyChosen : list string) (tag : string)
    : string :=
  if String.eqb tag CLEAR_TAG then clearLabel
  else
    let isRecent := JsArray.includes recentlyChosen tag in
    let displayText := if isRecent then recentMark +:+ tag else tag in
    displayText.

End Render.

(** The line holds no [#]. *)
Definition noHash (s : string) : Prop := ~ isSubstring "#" s.

(** A buffer whose view refuses to move the cursor: the text can be
    replaced, [setCursor] throws. *)
Record PinnedCursorBuffer := { pinned : TextBuffer }.

#[export] Instance PinnedCursorBuffer_Editor : Editor PinnedCursorBuffer := {
  getCursor b := cursor (pinned b);
  getLine n b := getLine n (pinned b);
  replaceRange t a b buf :=
    match replaceRange t a b (pinned buf) with
    | Some buf' => Some {| pinned := buf' |}
    | None => None
    end;
  setCursor _ _ := None
}.

(** Each choice of the run is an entry of the suggestions shown for some
    query by a modal, whose catalog [loadAllTags] built. *)
Definition pickedFromSuggestions (choices : list (TagPosition * string))
    : Prop :=
  Forall
    (fun choice =>
       exists localeCompare obj recency query,
         snd choice ∈
           getSuggestions (loadAllTags localeCompare obj recency) query)
    choices.

(** The text is a tag of the full pattern from its first to its last
    character. *)
Definition isFullTag (tag : string) : Prop :=
  TagRegExp.execTagAt tag = Some tag.

(** * Facts about strings *)

Section StringFacts.

Import JsString.

Lemma str_length_nonneg s : 0 <= length s.
Proof. unfold length. lia. Qed.

Lemma str_length_cons c s : length (String c s) = 1 + length s.
Proof. unfold length. simpl String.length. lia. Qed.

Lemma str_length_app s t : length (s +:+ t) = length s + length t.
Proof.
  induction s as [|c s IH]; [reflexivity|].
  change (String c s +:+ t) with (String c (s +:+ t)).
  rewrite !str_length_cons, IH. lia.
Qed.

Lemma str_length_app_nat s t :
  String.length (s +:+ t) = (String.length s + String.length t)%nat.
Proof.
  induction s as [|c s IH]; [reflexivity|].
  change (String c s +:+ t) with (String c (s +:+ t)). simpl. by rewrite IH.
Qed.

Lemma str_drop_app_length pre s :
  drop (String.length pre) (pre +:+ s) = s.
Proof. induction pre as [|c pre IH]; [by destruct s|exact IH]. Qed.

Lemma str_take_app_length pre s :
  take (String.length pre) (pre +:+ s) = pre.
Proof.
  induction pre as [|c pre IH]; [by destruct s|].
  simpl. change (String c pre +:+ s) with (String c (pre +:+ s)).
  simpl. by rewrite IH.
Qed.

Lemma str_take_drop n s : take n s +:+ drop n s = s.
Proof.
  revert s; induction n as [|n IH]; intros [|c s]; try reflexivity.
  simpl. change (String c (take n s) +:+ drop n s)
    with (String c (take n s +:+ drop n s)). by rewrite IH.
Qed.

Lemma str_app_assoc s t u : (s +:+ t) +:+ u = s +:+ (t +:+ u).
Proof.
  induction s as [|c s IH]; [reflexivity|].
  change (String c s +:+ t) with (String c (s +:+ t)).
  change (String c (s +:+ t) +:+ u) with (String c ((s +:+ t) +:+ u)).
  by rewrite IH.
Qed.

Lemma prefix_app m s :
  String.prefix m s = true -> s = m +:+ drop (String.length m) s.
Proof.
  revert s; induction m as [|c m IH]; intros s Hp.
  - by destruct s.
  - destruct s as [|d s]; [discriminate|]. simpl in Hp.
    destruct (ascii_dec c d) as [->|]; [|discriminate].
    simpl. change (String d m +:+ drop (String.length m) s)
      with (String d (m +:+ drop (String.length m) s)).
    by rewrite <- IH.
Qed.

(** [indexOf] started at the end of a known prefix searches the rest. *)
Lemma indexOf_app pre s sub :
  indexOf (pre +:+ s) sub (length pre) = indexOf_from s sub (length pre).
Proof.
  unfold indexOf. rewrite str_length_app.
  pose proof (str_length_nonneg pre). pose proof (str_length_nonneg s).
  replace (Z.min (Z.max (length pre) 0) (length pre + length s))
    with (length pre) by lia.
  unfold length at 1. rewrite Nat2Z.id. by rewrite str_drop_app_length.
Qed.

Lemma indexOf_from_eq s sub pos :
  indexOf_from s sub pos =
  if String.prefix sub s then pos
  else match s with
       | EmptyString => -1
       | String _ r => indexOf_from r sub (pos + 1)
       end.
Proof. destruct s; reflexivity. Qed.

Lemma indexOf_from_prefix s sub pos :
  String.prefix sub s = true -> indexOf_from s sub pos = pos.
Proof. intros Hp. by rewrite indexOf_from_eq, Hp. Qed.

Lemma indexOf_from_skip c s sub pos :
  String.prefix sub (String c s) = false ->
  indexOf_from (String c s) sub pos = indexOf_from s sub (pos + 1).
Proof. intros Hp. by rewrite indexOf_from_eq, Hp. Qed.

End StringFacts.

(** * Facts about the tag pattern *)

Section RegExpFacts.

Import JsString TagRegExp.

Lemma tagChars_prefix r : String.prefix (tagChars r) r = true.
Proof.
  induction r as [|c r IH]; [reflexivity|]. simpl.
  destruct (isTagChar c); [|reflexivity]. simpl.
  destruct (ascii_dec c c); [exact IH|congruence].
Qed.

Lemma execTagAt_Some s m :
  execTagAt s = Some m -> String.prefix m s = true /\ wfTag m.
Proof.
  destruct s as [|c r]; [discriminate|]. unfold execTagAt.
  destruct (charCode c =? 35) eqn:Hc; [|discriminate].
  destruct (tagChars r) as [|d body] eqn:Ht; [discriminate|].
  intros [= <-]. split.
  - simpl. destruct (ascii_dec c c); [|congruence].
    rewrite <- Ht. apply tagChars_prefix.
  - exists c, d, body. split; [reflexivity|]. split; [lia|].
    destruct r as [|e r]; [discriminate|]. simpl in Ht.
    destruct (isTagChar e) eqn:He; [|discriminate]. congruence.
Qed.

(** Where the full pattern fails, no well-formed tag text starts. *)
Lemma execTagAt_None s m :
  execTagAt s = None -> wfTag m -> String.prefix m s = false.
Proof.
  intros Hn (c & d & body & -> & Hc & Hd).
  destruct s as [|a r]; [reflexivity|]. simpl.
  destruct (ascii_dec c a) as [<-|]; [|reflexivity].
  unfold execTagAt in Hn. apply Z.eqb_eq in Hc. rewrite Hc in Hn.
  destruct r as [|e r]; [reflexivity|]. simpl.
  destruct (ascii_dec d e) as [<-|]; [|reflexivity].
  simpl in Hn. rewrite Hd in Hn. discriminate.
Qed.

Lemma scan_skip k pos s :
  scan k pos s = scan 0 (pos + Z.of_nat k) (drop k s).
Proof.
  revert k pos; induction s as [|c r IH]; intros k pos.
  - by destruct k.
  - destruct k as [|k].
    + simpl drop. by rewrite Z.add_0_r.
    + simpl scan. rewrite IH. simpl drop. f_equal. lia.
Qed.

(** The scan, one match at a time. *)
Lemma scan_eq pos s :
  scan 0 pos s =
  match s with
  | EmptyString => []
  | String _ r =>
      match execTagAt s with
      | Some m =>
          (pos, m) :: scan 0 (pos + length m) (drop (String.length m) s)
      | None => scan 0 (pos + 1) r
      end
  end.
Proof.
  destruct s as [|c r]; [reflexivity|].
  change (scan 0 pos (String c r))
    with (match execTagAt (String c r) with
          | Some m => (pos, m) :: scan (String.length m - 1) (pos + 1) r
          | None => scan 0 (pos + 1) r
          end).
  destruct (execTagAt (String c r)) as [m|] eqn:Hm; [|reflexivity].
  destruct (execTagAt_Some _ _ Hm) as [_ (a & d & body & -> & _)].
  rewrite scan_skip. simpl String.length.
  replace (S (S (String.length body)) - 1)%nat
    with (S (String.length body)) by lia.
  rewrite !str_length_cons.
  change (drop (S (S (String.length body))) (String c r))
    with (drop (S (String.length body)) r).
  do 2 f_equal. unfold length. lia.
Qed.

Lemma scan_wf k pos s : Forall (fun im => wfTag (snd im)) (scan k pos s).
Proof.
  revert k pos; induction s as [|c r IH]; intros k pos; [constructor|].
  destruct k as [|k]; [|apply IH].
  change (scan 0 pos (String c r))
    with (match execTagAt (String c r) with
          | Some m => (pos, m) :: scan (String.length m - 1) (pos + 1) r
          | None => scan 0 (pos + 1) r
          end).
  destruct (execTagAt (String c r)) as [m|] eqn:Hm; [|apply IH].
  constructor; [|apply IH]. by apply execTagAt_Some in Hm as [_ ?].
Qed.

Lemma wfTag_length m : wfTag m -> 2 <= length m.
Proof.
  intros (c & d & body & -> & _). rewrite !str_length_cons.
  pose proof (str_length_nonneg body). lia.
Qed.

Lemma chained_weaken lo lo' spans :
  lo' <= lo -> chained lo spans -> chained lo' spans.
Proof. destruct spans; simpl; [done|]. intuition lia. Qed.

Lemma str_drop_length k s :
  String.length (drop k s) = (String.length s - k)%nat.
Proof.
  revert s; induction k as [|k IH]; intros [|c s]; simpl; try lia. apply IH.
Qed.

Lemma scan_chained_aux n : forall s pos,
  (String.length s <= n)%nat -> chained pos (map spanOf (scan 0 pos s)).
Proof.
  induction n as [|n IH]; intros s pos Hn.
  - destruct s; [exact I|simpl in Hn; lia].
  - rewrite scan_eq. destruct s as [|c r]; [exact I|].
    destruct (execTagAt (String c r)) as [m|] eqn:Hm.
    + destruct (execTagAt_Some _ _ Hm) as [Hp Hw].
      pose proof (wfTag_length _ Hw) as Hl.
      cbn [map chained spanOf fst snd]. repeat split; [lia..|].
      apply IH. rewrite str_drop_length. unfold length in Hl. lia.
    + apply chained_weaken with (pos + 1); [lia|]. apply IH. simpl in Hn. lia.
Qed.

Lemma tagSpans_chained lineText : chained 0 (tagSpans lineText).
Proof. apply (scan_chained_aux (String.length lineText)). lia. Qed.

End RegExpFacts.

(** * The scan against the pattern *)

Section ScanAdequacy.

Import JsString TagRegExp.

Lemma str_app_cons c s t : String c s +:+ t = String c (s +:+ t).
Proof. reflexivity. Qed.

Lemma str_snoc_app pre c r : pre +:+ String c r = (pre +:+ String c "") +:+ r.
Proof. by rewrite str_app_assoc. Qed.

Lemma str_length_snoc pre c : length (pre +:+ String c "") = length pre + 1.
Proof. by rewrite str_length_app. Qed.

(** Every reported match sits in the line at its index, and it is what the
    pattern matches there: [#], then the whole run of class characters. *)
Lemma scan_sound n : forall s pre i m,
  (String.length s <= n)%nat ->
  In (i, m) (scan 0 (length pre) s) ->
  exists before after,
    pre +:+ s = before +:+ m +:+ after
    /\ length before = i
    /\ execTagAt (m +:+ after) = Some m.
Proof.
  induction n as [|n IH]; intros s pre i m Hn Hin.
  - destruct s; [destruct Hin|simpl in Hn; lia].
  - rewrite scan_eq in Hin. destruct s as [|c r]; [destruct Hin|].
    change (String.length (String c r)) with (S (String.length r)) in Hn.
    destruct (execTagAt (String c r)) as [m0|] eqn:Hm.
    + destruct (execTagAt_Some _ _ Hm) as [Hp Hw].
      pose proof (prefix_app _ _ Hp) as Hs.
      destruct Hin as [[= <- <-]|Hin].
      * exists pre, (drop (String.length m0) (String c r)).
        rewrite <- Hs. by rewrite Hm.
      * rewrite <- (str_length_app pre m0) in Hin.
        apply IH in Hin as (before & after & He & Hl & Hx).
        -- exists before, after. split; [|done].
           by rewrite Hs, <- str_app_assoc.
        -- pose proof (wfTag_length _ Hw) as Hl. unfold length in Hl.
           rewrite str_drop_length.
           change (String.length (String c r)) with (S (String.length r)).
           lia.
    + rewrite <- (str_length_snoc pre c) in Hin.
      apply IH in Hin as (before & after & He & Hl & Hx); [|lia].
      exists before, after. split; [|done]. by rewrite str_snoc_app.
Qed.

Lemma matchAll_sound lineText i m :
  In (i, m) (matchAll lineText) ->
  exists before after,
    lineText = before +:+ m +:+ after
    /\ length before = i
    /\ execTagAt (m +:+ after) = Some m.
Proof. apply (scan_sound (String.length lineText) lineText ""). lia. Qed.

Lemma hash_not_tagChar c : charCode c = 35 -> isTagChar c = false.
Proof.
  intros Hc. unfold isTagChar, isWordChar, inRange. by rewrite Hc.
Qed.

Lemma tagChars_stop g c x :
  isTagChar c = false -> tagChars (g +:+ String c x) = tagChars g.
Proof.
  intros Hc. induction g as [|a g IH].
  - change ("" +:+ String c x) with (String c x). simpl. by rewrite Hc.
  - rewrite str_app_cons. simpl. destruct (isTagChar a); [by rewrite IH|done].
Qed.

(** Every place of the line where [#] is followed by a class character is
    the start of a reported match. *)
Lemma scan_complete n : forall s pre gap c d rest,
  (String.length s <= n)%nat ->
  s = gap +:+ String c (String d rest) ->
  charCode c = 35 -> isTagChar d = true ->
  exists m, In (length (pre +:+ gap), m) (scan 0 (length pre) s).
Proof.
  induction n as [|n IH]; intros s pre gap c d rest Hn Hs Hc Hd.
  - subst s. destruct gap; simpl in Hn; lia.
  - rewrite scan_eq. destruct gap as [|g gap].
    + change ("" +:+ String c (String d rest)) with (String c (String d rest))
        in Hs. subst s. unfold execTagAt. apply Z.eqb_eq in Hc. rewrite Hc.
      simpl tagChars. rewrite Hd.
      eexists. left. f_equal. by rewrite str_length_app, Z.add_0_r.
    + rewrite str_app_cons in Hs. subst s.
      change (String.length (String g (gap +:+ String c (String d rest))))
        with (S (String.length (gap +:+ String c (String d rest)))) in Hn.
      destruct (execTagAt (String g (gap +:+ String c (String d rest))))
        as [m0|] eqn:Hm.
      * assert (exists gap', gap = drop 0 (tagChars gap) +:+ gap'
                            /\ m0 = String g (tagChars gap)) as (gap' & Hg & ->).
        { unfold execTagAt in Hm. destruct (charCode g =? 35); [|done].
          rewrite tagChars_stop in Hm by by apply hash_not_tagChar.
          destruct (tagChars gap) eqn:Ht; [done|]. injection Hm as <-.
          rewrite <- Ht. eexists. split; [|done].
          replace (drop 0 (tagChars gap)) with (tagChars gap)
            by by destruct (tagChars gap).
          apply prefix_app, tagChars_prefix. }
        replace (drop 0 (tagChars gap)) with (tagChars gap) in Hg
          by by destruct (tagChars gap).
        destruct (IH (gap' +:+ String c (String d rest))
                    (pre +:+ String g (tagChars gap)) gap' c d rest)
          as (m & Hin); [|done..|].
        { rewrite Hg, !str_length_app_nat in Hn.
          rewrite str_length_app_nat. lia. }
        exists m. right.
        replace (drop (String.length (String g (tagChars gap)))
                   (String g (gap +:+ String c (String d rest))))
          with (gap' +:+ String c (String d rest)).
        2:{ rewrite Hg at 2. rewrite str_app_assoc, <- str_app_cons.
            by rewrite str_drop_app_length. }
        replace (pre +:+ String g gap)
          with ((pre +:+ String g (tagChars gap)) +:+ gap');
          [by rewrite <- (str_length_app pre (String g (tagChars gap)))|].
        rewrite str_app_assoc, str_app_cons. by rewrite <- Hg.
      * destruct (IH (gap +:+ String c (String d rest))
                    (pre +:+ String g "") gap c d rest) as (m & Hin);
          [lia|done..|].
        exists m. rewrite str_length_snoc in Hin.
        by rewrite str_snoc_app.
Qed.

Lemma matchAll_complete before c d rest :
  charCode c = 35 -> isTagChar d = true ->
  exists m,
    In (length before, m) (matchAll (before +:+ String c (String d rest))).
Proof.
  intros Hc Hd.
  apply (scan_complete _ _ "" before c d rest (Nat.le_refl _) eq_refl Hc Hd).
Qed.

End ScanAdequacy.

(** * The locator against the matches of the pattern *)

Section LocatorFacts.

Import JsString TagRegExp.

Lemma chained_In lo spans sp :
  chained lo spans -> In sp spans -> lo <= fst sp /\ fst sp < snd sp.
Proof.
  revert lo; induction spans as [|sp' rest IH]; intros lo Hc []; simpl in Hc.
  - subst. lia.
  - destruct Hc as (? & ? & Hc). destruct (IH _ Hc); [done|]. lia.
Qed.

(** Spans that precede a span in a chain end at or before its start. *)
Lemma chained_before lo l1 sp l2 sp' :
  chained lo (l1 ++ sp :: l2) -> In sp' l1 -> snd sp' <= fst sp.
Proof.
  revert lo; induction l1 as [|x l1 IH]; intros lo Hc []; simpl in Hc.
  - subst x. destruct Hc as (_ & _ & Hc).
    apply chained_In with (sp := sp) in Hc; [lia|].
    apply in_or_app. right. by left.
  - destruct Hc as (_ & _ & Hc). by apply (IH _ Hc).
Qed.

(** Moving [searchFrom] over a character where the pattern does not match
    changes nothing for the tags still to be looked up. *)
Lemma findClickedTag_step pre c r col tags :
  Forall wfTag tags ->
  execTagAt (String c r) = None ->
  findClickedTag (pre +:+ String c r) col (length pre) tags =
  findClickedTag (pre +:+ String c r) col (length pre + 1) tags.
Proof.
  intros Hwf Hn. induction Hwf as [|tag rest Hw _ IH]; [reflexivity|].
  assert (indexOf (pre +:+ String c r) tag (length pre) =
          indexOf (pre +:+ String c r) tag (length pre + 1)) as Hi.
  { rewrite indexOf_app, indexOf_from_skip by by apply execTagAt_None.
    change (String c r) with (String c "" +:+ r).
    rewrite <- str_app_assoc.
    replace (length pre + 1) with (length (pre +:+ String c ""))
      by (rewrite str_length_app; reflexivity).
    by rewrite indexOf_app. }
  cbn [findClickedTag]. rewrite <- Hi, IH. reflexivity.
Qed.

Lemma findClickedTag_scan col n : forall s pre,
  (String.length s <= n)%nat ->
  findClickedTag (pre +:+ s) col (length pre)
    (map snd (scan 0 (length pre) s)) =
  from_option id (-1, -1)
    (find (contains col) (map spanOf (scan 0 (length pre) s))).
Proof.
  induction n as [|n IH]; intros s pre Hn.
  - destruct s; [reflexivity|simpl in Hn; lia].
  - destruct s as [|c r]; [reflexivity|]. rewrite scan_eq.
    destruct (execTagAt (String c r)) as [m|] eqn:Hm.
    + destruct (execTagAt_Some _ _ Hm) as [Hp Hw].
      pose proof (wfTag_length _ Hw) as Hl.
      pose proof (str_length_nonneg pre) as Hpre.
      cbn [map find findClickedTag snd].
      rewrite indexOf_app, indexOf_from_prefix by done.
      replace (negb (length pre =? -1)) with true
        by (symmetry; apply negb_true_iff, Z.eqb_neq; lia).
      change (spanOf (length pre, m))
        with (length pre, length pre + length m).
      unfold contains at 1. cbn [fst snd].
      rewrite Z.geb_leb.
      destruct ((length pre <=? col) && (col <=? length pre + length m));
        [reflexivity|].
      rewrite (prefix_app _ _ Hp) at 1. rewrite <- str_app_assoc.
      rewrite <- (str_length_app pre m). apply IH.
      rewrite str_drop_length. unfold length in Hl.
      change (String.length (String c r)) with (S (String.length r)) in *.
      lia.
    + rewrite findClickedTag_step; [| |done].
      * change (String c r) with (String c "" +:+ r).
        rewrite <- str_app_assoc.
        replace (length pre + 1) with (length (pre +:+ String c ""))
          by (rewrite str_length_app; reflexivity).
        apply IH. simpl in Hn. lia.
      * apply Forall_map. apply scan_wf.
Qed.

(** With at least one full match on the line, the locator answers with
    the first match whose closed range holds the cursor, and with nothing
    when there is no such match. *)
Lemma locate_full lineText col :
  tagSpans lineText <> [] ->
  locate lineText col = find (contains col) (tagSpans lineText).
Proof.
  intros Hne. unfold locate, match_g, tagSpans in *.
  destruct (matchAll lineText) as [|m ms] eqn:Hms; [done|].
  rewrite <- Hms. unfold matchAll in *.
  pose proof (findClickedTag_scan col (String.length lineText) lineText ""
                (Nat.le_refl _)) as Hf.
  change (length "") with 0 in Hf. change ("" +:+ lineText) with lineText in Hf.
  rewrite Hf.
  destruct (find (contains col) (map spanOf (scan 0 0 lineText)))
    as [[s e]|] eqn:Hfind; [|reflexivity].
  apply find_some in Hfind as [Hin _].
  apply (chained_In 0) in Hin; [|apply tagSpans_chained]. simpl in *.
  replace (s =? -1) with false by (symmetry; apply Z.eqb_neq; lia).
  replace (e =? -1) with false by (symmetry; apply Z.eqb_neq; lia).
  reflexivity.
Qed.

(** Without any full match the answer is the first match of the partial
    pattern, wherever the cursor is. *)
Lemma locate_fallback lineText col :
  tagSpans lineText = [] ->
  locate lineText col = option_map spanOf (match_partial lineText).
Proof.
  intros He. unfold locate, match_g, tagSpans in *.
  destruct (matchAll lineText); [|discriminate].
  by destruct (match_partial lineText) as [[]|].
Qed.

End LocatorFacts.

(** * The partial pattern *)

Section FallbackFacts.

Import JsString TagRegExp.

Lemma search_partial_sound s : forall p i m,
  search_partial p s = Some (i, m) ->
  exists before c r,
    s = before +:+ String c r /\ charCode c = 35
    /\ m = String c (tagChars r) /\ i = p + length before.
Proof.
  induction s as [|a s IH]; intros p i m Hs; [discriminate|].
  simpl in Hs. destruct (charCode a =? 35) eqn:Ha.
  - injection Hs as <- <-. exists "", a, s.
    repeat split; [by apply Z.eqb_eq|]. change (length "") with 0. lia.
  - apply IH in Hs as (before & c & r & -> & Hc & -> & ->).
    exists (String a before), c, r. repeat split; [done|].
    rewrite str_length_cons. lia.
Qed.

(** On a line without a full match the partial pattern can only match a
    bare [#]. *)
Lemma match_partial_bare lineText i m :
  tagSpans lineText = [] ->
  match_partial lineText = Some (i, m) ->
  m = "#" /\ spanOf (i, m) = (i, i + 1).
Proof.
  intros Hnone Hm.
  apply search_partial_sound in Hm as (before & c & r & -> & Hc & -> & ->).
  assert (tagChars r = "") as ->.
  { destruct r as [|d r]; [reflexivity|]. simpl.
    destruct (isTagChar d) eqn:Hd; [|reflexivity]. exfalso.
    destruct (matchAll_complete before c d r Hc Hd) as (m & Hin).
    unfold tagSpans in Hnone. apply map_eq_nil in Hnone.
    rewrite Hnone in Hin. destruct Hin. }
  assert (c = "#"%char) as ->.
  { rewrite <- (ascii_N_embedding c). unfold charCode in Hc.
    replace (N_of_ascii c) with 35%N by lia. reflexivity. }
  done.
Qed.

Lemma handleTagClick_locate {E : Type} `{Editor E} (editor : E) :
  handleTagClick (Some editor) =
  match locate (getLine (line (getCursor editor)) editor)
          (ch (getCursor editor)) with
  | Some (tagStart, tagEnd) =>
      Some {| from := {| line := line (getCursor editor); ch := tagStart |};
              to := {| line := line (getCursor editor); ch := tagEnd |} |}
  | None => None
  end.
Proof. reflexivity. Qed.

End FallbackFacts.

(** * Facts about arrays *)

Section ArrayFacts.

Lemma includes_In l x : JsArray.includes l x = true <-> In x l.
Proof.
  unfold JsArray.includes. rewrite existsb_exists. split.
  - intros (y & Hy & He). apply String.eqb_eq in He. by subst.
  - intros Hx. exists x. split; [done|]. apply String.eqb_refl.
Qed.

Variable comparefn : string -> string -> Z.

Lemma insert_Permutation x l :
  Permutation (JsArray.insert comparefn x l) (x :: l).
Proof.
  induction l as [|y r IH]; [reflexivity|]. simpl.
  destruct (comparefn x y >? 0); [|reflexivity].
  rewrite IH. apply perm_swap.
Qed.

Lemma sort_Permutation l : Permutation (JsArray.sort comparefn l) l.
Proof.
  induction l as [|x l IH]; [reflexivity|]. simpl.
  rewrite insert_Permutation. by constructor.
Qed.

(** The comparator is consistent: a pair it orders one way is not ordered
    the other way too, and its order is transitive. *)
Hypothesis comparefn_antisym :
  forall a b, 0 < comparefn a b -> comparefn b a <= 0.
Hypothesis comparefn_trans :
  forall a b c, comparefn a b <= 0 -> comparefn b c <= 0 -> comparefn a c <= 0.

Lemma insert_StronglySorted x l :
  sortedBy comparefn l -> sortedBy comparefn (JsArray.insert comparefn x l).
Proof.
  induction 1 as [|y r Hs IH Hy]; simpl.
  - repeat constructor.
  - destruct (comparefn x y >? 0) eqn:Hc.
    + constructor; [exact IH|].
      apply List.Forall_forall. intros z Hz.
      apply (Permutation_in _ (insert_Permutation x r)) in Hz.
      destruct Hz as [<-|Hz].
      * apply comparefn_antisym. lia.
      * rewrite List.Forall_forall in Hy. by apply Hy.
    + constructor; [by constructor|]. constructor; [lia|].
      eapply List.Forall_impl; [|exact Hy]. intros z Hz.
      apply comparefn_trans with y; [lia|exact Hz].
Qed.

Lemma sort_StronglySorted l : sortedBy comparefn (JsArray.sort comparefn l).
Proof.
  induction l as [|x l IH]; [constructor|]. by apply insert_StronglySorted.
Qed.

End ArrayFacts.

(** * Facts about the catalog *)

Section CatalogFacts.

Variable localeCompare : string -> string -> Z.

Lemma allVaultTags_hash obj tag :
  tag ∈ allVaultTags obj -> JsString.startsWith tag "#" = true.
Proof.
  rewrite list_elem_of_In.
  destruct obj as [o|]; [|intros []]. unfold allVaultTags.
  rewrite in_map_iff. intros (key & <- & _).
  destruct (JsString.startsWith key "#") eqn:Hk; [exact Hk|].
  by destruct key.
Qed.

Lemma CLEAR_TAG_not_vault obj : CLEAR_TAG ∉ allVaultTags obj.
Proof. intros Hin. apply allVaultTags_hash in Hin. discriminate. Qed.

Lemma loadAllTags_eq obj recency :
  loadAllTags localeCompare obj recency =
  CLEAR_TAG ::
    keptRecent (allVaultTags obj) recency ++
    JsArray.sort localeCompare
      (remainder (allVaultTags obj) (keptRecent (allVaultTags obj) recency)).
Proof.
  unfold loadAllTags, JsArray.unshift, keptRecent, remainder.
  set (vault := allVaultTags obj).
  assert (List.filter (fun tag => bool_decide (tag ∈ (list_to_set vault : gset string)))
            (rev recency) =
          List.filter (fun tag => bool_decide (tag ∈ vault)) (rev recency)) as ->.
  { apply filter_ext. intros tag. apply bool_decide_ext.
    apply elem_of_list_to_set. }
  do 3 f_equal. apply filter_ext. intros tag.
  rewrite bool_decide_not. f_equal.
  apply eq_true_iff_eq.
  rewrite includes_In, bool_decide_eq_true, list_elem_of_In. reflexivity.
Qed.

Lemma filter_NoDup (f : string -> bool) l : NoDup l -> NoDup (List.filter f l).
Proof. rewrite !NoDup_ListNoDup. apply List.NoDup_filter. Qed.

Lemma filter_elem (f : string -> bool) l x :
  x ∈ List.filter f l <-> x ∈ l /\ f x = true.
Proof. rewrite !list_elem_of_In. apply filter_In. Qed.

Lemma keptRecent_elem vault recency tag :
  tag ∈ keptRecent vault recency <-> tag ∈ recency /\ tag ∈ vault.
Proof.
  unfold keptRecent. rewrite filter_elem, bool_decide_eq_true.
  by rewrite !list_elem_of_In, <- in_rev.
Qed.

Lemma remainder_elem vault recent tag :
  tag ∈ remainder vault recent <-> tag ∈ vault /\ tag ∉ recent.
Proof. unfold remainder. by rewrite filter_elem, bool_decide_eq_true. Qed.

Lemma catalog_NoDup obj recency rest :
  NoDup (allVaultTags obj) -> NoDup recency ->
  rest ≡ₚ remainder (allVaultTags obj) (keptRecent (allVaultTags obj) recency) ->
  NoDup (CLEAR_TAG :: keptRecent (allVaultTags obj) recency ++ rest).
Proof.
  intros Hv Hr Hp. rewrite Hp. pose proof (CLEAR_TAG_not_vault obj) as Hc.
  set (vault := allVaultTags obj) in *.
  apply NoDup_cons. split.
  - rewrite elem_of_app, keptRecent_elem, remainder_elem. tauto.
  - apply NoDup_app. repeat split.
    + apply filter_NoDup. rewrite NoDup_ListNoDup. apply NoDup_rev.
      by rewrite <- NoDup_ListNoDup.
    + intros tag Hin. rewrite remainder_elem. tauto.
    + by apply filter_NoDup.
Qed.

End CatalogFacts.

(** * Facts about substring search and the suggestions *)

Section SubstringFacts.

Import JsString.

Lemma prefix_app_true sub post : String.prefix sub (sub +:+ post) = true.
Proof.
  induction sub as [|c sub IH]; [by destruct post|].
  change (String c sub +:+ post) with (String c (sub +:+ post)). simpl.
  by destruct (ascii_dec c c).
Qed.

Lemma indexOf_from_found s sub pos :
  0 <= pos -> indexOf_from s sub pos <> -1 <-> isSubstring sub s.
Proof.
  revert pos; induction s as [|c r IH]; intros pos Hpos;
    rewrite indexOf_from_eq.
  - destruct (String.prefix sub "") eqn:Hp.
    + split; [intros _|lia]. destruct sub; [|discriminate]. by exists "", "".
    + split; [done|]. intros (pre & post & He).
      destruct pre; [|discriminate]. destruct sub; discriminate.
  - destruct (String.prefix sub (String c r)) eqn:Hp.
    + split; [intros _|lia]. exists "". eexists. by apply prefix_app in Hp.
    + rewrite IH by lia. split.
      * intros (pre & post & ->). by exists (String c pre), post.
      * intros (pre & post & He). destruct pre as [|d pre].
        -- change ("" +:+ sub +:+ post) with (sub +:+ post) in He.
           rewrite He, prefix_app_true in Hp. discriminate.
        -- injection He as -> ->. by exists pre, post.
Qed.

(** [includes] decides occurrence. *)
Lemma includes_spec s sub : includes s sub = true <-> isSubstring sub s.
Proof.
  unfold includes, indexOf. pose proof (str_length_nonneg s).
  replace (Z.min (Z.max 0 0) (length s)) with 0 by lia.
  change (drop (Z.to_nat 0) s) with (drop 0 s).
  replace (drop 0 s) with s by by destruct s.
  rewrite negb_true_iff, Z.eqb_neq. by apply indexOf_from_found.
Qed.

Lemma clearIntent_spec query :
  includes "clear" (toLowerCase query)
  || includes "remove" (toLowerCase query)
  || includes "delete" (toLowerCase query) = true <-> clearIntent query.
Proof.
  unfold clearIntent. rewrite !orb_true_iff, !includes_spec. split.
  - intros [[H|H]|H]; eexists; (split; [|exact H]); set_solver.
  - intros (kw & Hkw & H).
    rewrite !elem_of_cons, elem_of_nil in Hkw.
    destruct Hkw as [->|[->|[->|[]]]]; tauto.
Qed.

Lemma matchesQuery_spec query tag :
  matchesQuery query tag = true <->
  tag <> CLEAR_TAG /\ isSubstring (toLowerCase query) (toLowerCase tag).
Proof.
  unfold matchesQuery.
  by rewrite andb_true_iff, negb_true_iff, String.eqb_neq, includes_spec.
Qed.

End SubstringFacts.

Lemma getSuggestions_eq allTags query :
  getSuggestions allTags query =
  if String.eqb query "" then allTags
  else if JsString.includes "clear" (JsString.toLowerCase query)
          || JsString.includes "remove" (JsString.toLowerCase query)
          || JsString.includes "delete" (JsString.toLowerCase query)
       then CLEAR_TAG :: List.filter (matchesQuery query) allTags
       else List.filter (matchesQuery query) allTags.
Proof. reflexivity. Qed.

(** * Facts about the recency update *)

Section RecencyFacts.

Lemma array_indexOf_from_split l x pos :
  ((x ∉ l) /\ JsArray.indexOf_from l x pos = -1) \/
  (exists l1 l2, l = l1 ++ x :: l2 /\ (x ∉ l1) /\
     JsArray.indexOf_from l x pos = pos + Z.of_nat (length l1)).
Proof.
  revert pos; induction l as [|y r IH]; intros pos.
  - left. split; [apply not_elem_of_nil|reflexivity].
  - simpl. destruct (String.eqb_spec y x) as [->|Hne].
    + right. exists [], r. split; [done|]. split; [apply not_elem_of_nil|].
      simpl. lia.
    + destruct (IH (pos + 1)) as [[Hx He]|(l1 & l2 & -> & Hx & He)].
      * left. split; [|done]. rewrite not_elem_of_cons. by split.
      * right. exists (y :: l1), l2. split; [done|].
        split; [rewrite not_elem_of_cons; by split|].
        rewrite He. simpl length. lia.
Qed.

Lemma splice1_middle (l1 l2 : list string) x :
  JsArray.splice1 (l1 ++ x :: l2) (Z.of_nat (length l1)) = l1 ++ l2.
Proof.
  unfold JsArray.splice1. rewrite Nat2Z.id. f_equal.
  - rewrite firstn_app, firstn_all, Nat.sub_diag. simpl. apply app_nil_r.
  - change (x :: l2) with ([x] ++ l2). rewrite List.app_assoc.
    replace (S (length l1)) with (length (l1 ++ [x]))
      by (rewrite length_app; simpl; lia).
    apply skipn_app_length || apply drop_app_length.
Qed.

(** Choosing a tag that is not in the list appends it, and drops the
    oldest entry when the list would grow beyond 20. *)
Lemma updateRecentTags_absent l x :
  x ∉ l ->
  updateRecentTags l x =
  if Z.of_nat (length l) + 1 >? 20 then tl (l ++ [x]) else l ++ [x].
Proof.
  intros Hx. unfold updateRecentTags, JsArray.indexOf.
  destruct (array_indexOf_from_split l x 0) as [[_ ->]|(l1 & l2 & -> & _)].
  - simpl. unfold JsArray.length, JsArray.push, JsArray.shift.
    rewrite length_app. simpl length.
    replace (Z.of_nat (length l + 1)) with (Z.of_nat (length l) + 1) by lia.
    reflexivity.
  - exfalso. apply Hx. apply elem_of_app. right. left.
Qed.

(** Choosing a tag that is in the list moves its first occurrence to the
    end. *)
Lemma updateRecentTags_present l1 l2 x :
  x ∉ l1 ->
  updateRecentTags (l1 ++ x :: l2) x =
  if Z.of_nat (length (l1 ++ l2 ++ [x])) >? 20 then tl (l1 ++ l2 ++ [x])
  else l1 ++ l2 ++ [x].
Proof.
  intros Hx. unfold updateRecentTags, JsArray.indexOf.
  destruct (array_indexOf_from_split (l1 ++ x :: l2) x 0)
    as [[Hn _]|(k1 & k2 & He & Hk & ->)].
  - exfalso. apply Hn. apply elem_of_app. right. left.
  - assert (k1 = l1 /\ k2 = l2) as [-> ->].
    { clear -He Hx Hk. revert k1 He Hk.
      induction l1 as [|a l1 IH]; intros [|b k1] He Hk.
      - by injection He.
      - injection He as <- _. exfalso. apply Hk. left.
      - injection He as -> _. exfalso. apply Hx. left.
      - injection He as <- He. rewrite not_elem_of_cons in Hx, Hk.
        destruct (IH (proj2 Hx) k1) as [-> ->]; tauto. }
    replace (0 + Z.of_nat (length l1) >? -1) with true
      by (symmetry; apply Z.gtb_lt; lia).
    rewrite Z.add_0_l, splice1_middle.
    unfold JsArray.length, JsArray.push, JsArray.shift.
    by rewrite <- List.app_assoc.
Qed.

Lemma updateRecentTags_invariant l x :
  NoDup l -> (length l <= 20)%nat ->
  NoDup (updateRecentTags l x) /\ (length (updateRecentTags l x) <= 20)%nat.
Proof.
  intros Hnd Hlen.
  destruct (array_indexOf_from_split l x 0) as [[Hx _]|(l1 & l2 & -> & Hx & _)].
  - rewrite updateRecentTags_absent by done.
    assert (NoDup (l ++ [x])) as Hnd'.
    { apply NoDup_app. repeat split; [done| |apply NoDup_singleton].
      intros y Hy ->%list_elem_of_singleton. done. }
    assert (length (l ++ [x]) = S (length l)) as Hl'
      by (rewrite length_app; simpl; lia).
    destruct (Z.of_nat (length l) + 1 >? 20) eqn:Hc.
    + destruct (l ++ [x]) as [|y r]; [done|]. simpl in *.
      split; [by apply NoDup_cons in Hnd' as []|lia].
    + rewrite Z.gtb_ltb in Hc. apply Z.ltb_ge in Hc. split; [done|lia].
  - rewrite updateRecentTags_present by done.
    assert (l1 ++ l2 ++ [x] ≡ₚ l1 ++ x :: l2) as Hp.
    { apply Permutation_app_head. rewrite Permutation_app_comm. reflexivity. }
    assert (length (l1 ++ l2 ++ [x]) = length (l1 ++ x :: l2)) as Hl'
      by by rewrite Hp.
    replace (Z.of_nat (length (l1 ++ l2 ++ [x])) >? 20) with false
      by (symmetry; rewrite Z.gtb_ltb; apply Z.ltb_ge; lia).
    split; [by rewrite Hp|lia].
Qed.

(** One applier invocation either leaves the plugin alone or makes one
    recency update. *)
Lemma onChooseSuggestion_plugin {E : Type} `{Editor E} span tag (s : Session E) :
  plugin (snd (onChooseSuggestion span tag s)) = plugin s \/
  plugin (snd (onChooseSuggestion span tag s)) =
    updateRecentlyChosenTags tag (plugin s).
Proof.
  unfold onChooseSuggestion, seq, callEditor, callPlugin.
  destruct (String.eqb tag CLEAR_TAG).
  - destruct (replaceRange _ _ _ _); simpl; [|by left].
    destruct (setCursor _ _); simpl; by left.
  - destruct (replaceRange _ _ _ _); simpl; [|by left].
    destruct (setCursor _ _); simpl; [by right|by left].
Qed.

End RecencyFacts.

(** * Facts about the text buffer *)

Section BufferFacts.

Import JsString.

Lemma str_drop_drop a b s : drop a (drop b s) = drop (b + a) s.
Proof.
  revert s; induction b as [|b IH]; intros s; [reflexivity|].
  destruct s as [|c s]; [by destruct a|]. apply IH.
Qed.

Lemma str_take_length n s :
  (n <= String.length s)%nat -> String.length (take n s) = n.
Proof.
  revert s; induction n as [|n IH]; intros [|c s] Hn; simpl in *;
    try lia. rewrite IH; lia.
Qed.

(** A text is what lies before a range, the range, and what lies after. *)
Lemma str_split_range a b s :
  (a <= b)%nat -> s = take a s +:+ take (b - a) (drop a s) +:+ drop b s.
Proof.
  intros Hab. rewrite <- (str_take_drop a s) at 1. f_equal.
  rewrite <- (str_take_drop (b - a) (drop a s)) at 1. f_equal.
  rewrite str_drop_drop. f_equal. lia.
Qed.

Lemma lineOffset_nonneg lines n col acc :
  0 <= acc -> 0 <= lineOffset lines n col acc.
Proof.
  revert n acc; induction lines as [|l rest IH]; intros n acc Hacc; [done|].
  pose proof (str_length_nonneg l). destruct n as [|n]; simpl; [lia|].
  apply IH. lia.
Qed.

Lemma posToOffset_range p t : 0 <= posToOffset p t <= length t.
Proof.
  unfold posToOffset. pose proof (str_length_nonneg t).
  destruct (line p <? 0); [lia|].
  pose proof (lineOffset_nonneg (splitLines t) (Z.to_nat (line p)) (ch p) 0).
  lia.
Qed.

Lemma textBuffer_split (a b : EditorPosition) (t : string) :
  posToOffset a t <= posToOffset b t ->
  t = take (Z.to_nat (posToOffset a t)) t +:+ getRange a b t
      +:+ drop (Z.to_nat (posToOffset b t)) t
  /\ length (take (Z.to_nat (posToOffset a t)) t) = posToOffset a t.
Proof.
  intros Hab. pose proof (posToOffset_range a t).
  pose proof (posToOffset_range b t). split.
  - unfold getRange. rewrite Z2Nat.inj_sub by lia.
    apply str_split_range. lia.
  - unfold length in *. rewrite str_take_length; lia.
Qed.

End BufferFacts.

Lemma codeUnitCompare_antisym a b :
  0 < codeUnitCompare a b -> codeUnitCompare b a <= 0.
Proof.
  unfold codeUnitCompare. rewrite (String.compare_antisym a b).
  destruct (String.compare b a); simpl; lia.
Qed.

Lemma codeUnitCompare_le a b :
  codeUnitCompare a b <= 0 <-> String.le a b.
Proof.
  unfold codeUnitCompare, String.le, String.leb.
  destruct (String.compare a b); simpl; split; (done || lia).
Qed.

Lemma codeUnitCompare_trans a b c :
  codeUnitCompare a b <= 0 -> codeUnitCompare b c <= 0 ->
  codeUnitCompare a c <= 0.
Proof. rewrite !codeUnitCompare_le. apply transitivity. Qed.

(** * Located spans *)

Section LocatedSpans.

Import JsString TagRegExp.

(** A span the locator answers with starts at a column of the line and
    holds at least one character. *)
Lemma locate_ordered lineText col tagStart tagEnd :
  locate lineText col = Some (tagStart, tagEnd) -> 0 <= tagStart < tagEnd.
Proof.
  destruct (tagSpans lineText) as [|sp rest] eqn:Hs.
  - rewrite locate_fallback by done.
    destruct (match_partial lineText) as [[i m]|] eqn:Hm; [|discriminate].
    destruct (match_partial_bare _ _ _ Hs Hm) as [_ Hsp].
    apply search_partial_sound in Hm as (before & _ & _ & _ & _ & _ & Hi).
    pose proof (str_length_nonneg before).
    simpl. rewrite Hsp. intros [= <- <-]. lia.
  - rewrite locate_full by by rewrite Hs. intros Hf.
    apply find_some in Hf as [Hin _].
    apply (chained_In 0) in Hin; [simpl in Hin; lia|apply tagSpans_chained].
Qed.

Lemma lineOffset_mono lines n col col' acc :
  col <= col' -> lineOffset lines n col acc <= lineOffset lines n col' acc.
Proof.
  intros Hc. revert n acc; induction lines as [|l rest IH]; intros n acc;
    [done|]. destruct n as [|n]; simpl; [lia|apply IH].
Qed.

Lemma posToOffset_mono a b t :
  line a = line b -> ch a <= ch b -> posToOffset a t <= posToOffset b t.
Proof.
  intros Hl Hc. unfold posToOffset. rewrite Hl.
  destruct (line b <? 0); [done|].
  pose proof (lineOffset_mono (splitLines t) (Z.to_nat (line b)) _ _ 0 Hc).
  lia.
Qed.

(** The span handed over by [handleTagClick] on a buffer is a range of that
    buffer. *)
Lemma located_span_ordered (buf : TextBuffer) (tagPosition : TagPosition) :
  handleTagClick (Some buf) = Some tagPosition ->
  posToOffset (from tagPosition) (text buf)
    <= posToOffset (to tagPosition) (text buf).
Proof.
  rewrite handleTagClick_locate.
  destruct (locate _ _) as [[tagStart tagEnd]|] eqn:Hloc; [|discriminate].
  intros [= <-]. apply locate_ordered in Hloc.
  apply posToOffset_mono; simpl; lia.
Qed.

End LocatedSpans.

(** The host's index has one key per tag, each with its [#]: the vault
    tags are then the keys themselves, without repetition. *)
Lemma allVaultTags_NoDup (o : TagsObject) :
  NoDup (Object_keys o) ->
  Forall (fun key => JsString.startsWith key "#" = true) (Object_keys o) ->
  allVaultTags (Some o) = Object_keys o /\ NoDup (allVaultTags (Some o)).
Proof.
  intros Hnd Hall.
  assert (allVaultTags (Some o) = Object_keys o) as ->; [|done].
  unfold allVaultTags. induction Hall as [|key keys Hk _ IH]; [done|].
  simpl. rewrite Hk. f_equal. apply IH. by apply NoDup_cons in Hnd as [].
Qed.

(** * The catalog *)

(** C1. The candidate list is the sentinel, then the recency list reversed
    and restricted to the tags of the vault, then the other vault tags
    sorted by [localeCompare]; for a vault without repeated tag and a
    recency list without repeated tag no entry appears twice, and the
    sentinel is first. For the vault [#a, #b, #c] and the recency list
    [#c, #a] the list is [CLEAR_TAG, #a, #c, #b]. *)
Theorem loadAllTags_catalog (localeCompare : string -> string -> Z) :
  (forall n1 n2 n3 : Z,
     loadAllTags localeCompare (Some [("#a", n1); ("#b", n2); ("#c", n3)])
       ["#c"; "#a"] = [CLEAR_TAG; "#a"; "#c"; "#b"])
  /\ forall (obj : option TagsObject) (recency : list string),
       (forall a b, 0 < localeCompare a b -> localeCompare b a <= 0) ->
       (forall a b c, localeCompare a b <= 0 -> localeCompare b c <= 0 ->
                      localeCompare a c <= 0) ->
       NoDup (allVaultTags obj) ->
       NoDup recency ->
       exists rest,
         loadAllTags localeCompare obj recency =
           CLEAR_TAG :: keptRecent (allVaultTags obj) recency ++ rest
         /\ rest ≡ₚ remainder (allVaultTags obj)
                      (keptRecent (allVaultTags obj) recency)
         /\ sortedBy localeCompare rest
         /\ NoDup (loadAllTags localeCompare obj recency)
         /\ head (loadAllTags localeCompare obj recency) = Some CLEAR_TAG.
Proof.
  split; [intros; vm_compute; reflexivity|].
  intros obj recency Hanti Htrans Hv Hr.
  exists (JsArray.sort localeCompare
            (remainder (allVaultTags obj)
               (keptRecent (allVaultTags obj) recency))).
  rewrite loadAllTags_eq. repeat split.
  - apply sort_Permutation.
  - by apply sort_StronglySorted.
  - apply catalog_NoDup; [done..|]. apply sort_Permutation.
Qed.

Lemma loadAllTags_catalog_witness :
  exists rest,
    loadAllTags codeUnitCompare (Some [("#b", 2); ("c", 1); ("#a", 3)])
      ["#zz"; "#c"] =
      CLEAR_TAG ::
        keptRecent (allVaultTags (Some [("#b", 2); ("c", 1); ("#a", 3)]))
          ["#zz"; "#c"] ++ rest
    /\ rest ≡ₚ remainder (allVaultTags (Some [("#b", 2); ("c", 1); ("#a", 3)]))
                 (keptRecent
                    (allVaultTags (Some [("#b", 2); ("c", 1); ("#a", 3)]))
                    ["#zz"; "#c"])
    /\ sortedBy codeUnitCompare rest
    /\ NoDup (loadAllTags codeUnitCompare
                (Some [("#b", 2); ("c", 1); ("#a", 3)]) ["#zz"; "#c"])
    /\ head (loadAllTags codeUnitCompare
               (Some [("#b", 2); ("c", 1); ("#a", 3)]) ["#zz"; "#c"])
       = Some CLEAR_TAG.
Proof.
  apply (proj2 (loadAllTags_catalog codeUnitCompare)).
  - exact codeUnitCompare_antisym.
  - exact codeUnitCompare_trans.
  - apply (bool_decide_unpack _). vm_compute. exact I.
  - apply (bool_decide_unpack _). vm_compute. exact I.
Defined.

(** * The locator *)

(** C2. When some full match of the tag pattern holds the cursor in its
    closed column range, the locator returns the span of the first such
    match in left-to-right order; when exactly one match holds the cursor,
    that match's span is the one returned. *)
Theorem locate_first_containing (lineText : string) (col : Z) (sp : Z * Z) :
  sp ∈ tagSpans lineText ->
  contains col sp = true ->
  exists first,
    find (contains col) (tagSpans lineText) = Some first
    /\ locate lineText col = Some first
    /\ ((forall sp', sp' ∈ tagSpans lineText -> contains col sp' = true ->
                     sp' = sp) -> first = sp).
Proof.
  intros Hin Hc. apply list_elem_of_In in Hin.
  destruct (find (contains col) (tagSpans lineText)) as [first|] eqn:Hf.
  - exists first. split; [done|]. split.
    + rewrite locate_full; [done|]. by destruct (tagSpans lineText).
    + intros Huniq. apply find_some in Hf as [Hin' Hc'].
      apply Huniq; [by apply list_elem_of_In|done].
  - apply (find_none _ _ Hf) in Hin. congruence.
Qed.

Lemma locate_first_containing_witness :
  exists first,
    find (contains 6) (tagSpans "See #project/alpha and #todo") = Some first
    /\ locate "See #project/alpha and #todo" 6 = Some first
    /\ ((forall sp', sp' ∈ tagSpans "See #project/alpha and #todo" ->
                     contains 6 sp' = true -> sp' = (4, 18)) ->
        first = (4, 18)).
Proof.
  apply (locate_first_containing "See #project/alpha and #todo" 6 (4, 18)).
  - vm_compute. left.
  - reflexivity.
Defined.

(** C3, as the code has it. The partial pattern is tried only on a line
    without any full match, and then its first match is the answer
    wherever the cursor is; on a line that has full matches of which none
    holds the cursor the locator answers with nothing. *)
Theorem locate_fallback_only_without_match (lineText : string) (col : Z) :
  find (contains col) (tagSpans lineText) = None ->
  locate lineText col =
  match tagSpans lineText with
  | [] => option_map spanOf (TagRegExp.match_partial lineText)
  | _ :: _ => None
  end.
Proof.
  intros Hf. destruct (tagSpans lineText) as [|sp rest] eqn:Hs.
  - by apply locate_fallback.
  - rewrite locate_full by by rewrite Hs. by rewrite Hs.
Qed.

Lemma locate_fallback_only_without_match_witness :
  locate "x # y" 0 =
  match tagSpans "x # y" with
  | [] => option_map spanOf (TagRegExp.match_partial "x # y")
  | _ :: _ => None
  end.
Proof.
  apply (locate_fallback_only_without_match "x # y" 0). reflexivity.
Defined.

(** C3 as first written fails: on the line [# #a] with the cursor at column
    0 no full match holds the cursor and the partial pattern matches the
    bare [#] at columns 0 to 1, yet the locator answers with nothing. *)
Lemma locate_skips_fallback_beside_match :
  find (contains 0) (tagSpans "# #a") = None
  /\ option_map spanOf (TagRegExp.match_partial "# #a") = Some (0, 1)
  /\ locate "# #a" 0 = None
  /\ locate "# #a" 0 <> option_map spanOf (TagRegExp.match_partial "# #a").
Proof. repeat split; (reflexivity || discriminate). Qed.

(** C10. Two matches that share a boundary column: a cursor at that column
    is resolved to the left one. *)
Theorem locate_shared_boundary_left (lineText : string)
    (before after : list (Z * Z)) (start boundary stop : Z) :
  tagSpans lineText =
    before ++ (start, boundary) :: (boundary, stop) :: after ->
  locate lineText boundary = Some (start, boundary).
Proof.
  intros Hs. pose proof (tagSpans_chained lineText) as Hch.
  rewrite locate_full by (rewrite Hs; by destruct before).
  rewrite Hs in *. clear Hs.
  assert (start < boundary) as Hlt.
  { apply (chained_In _ _ (start, boundary)) in Hch; [simpl in Hch; lia|].
    apply in_or_app. right. by left. }
  induction before as [|sp before IH] in Hch |- *.
  - simpl. unfold contains. simpl.
    replace (start <=? boundary) with true by (symmetry; apply Z.leb_le; lia).
    by rewrite Z.leb_refl.
  - pose proof (chained_before 0 (sp :: before) (start, boundary) _ sp Hch
                  (or_introl eq_refl)) as Hb.
    simpl in Hb. simpl. unfold contains at 1.
    replace (boundary <=? snd sp) with false
      by (symmetry; apply Z.leb_gt; lia).
    rewrite andb_false_r. apply IH.
    simpl in Hch. destruct Hch as (? & ? & Hch).
    eapply chained_weaken; [|exact Hch]. lia.
Qed.

Lemma locate_shared_boundary_left_witness : locate "#a#b" 2 = Some (0, 2).
Proof.
  apply (locate_shared_boundary_left "#a#b" [] [] 0 2 4). reflexivity.
Defined.

(** * The recency list *)

(** C4. From a recency list of at most 20 tags without repetition, any run
    of applier invocations leaves a list of at most 20 tags without
    repetition; a new tag chosen when the list is full evicts the oldest
    entry at the front; a tag already in the list moves to the last
    position and the length stays the same. *)
Theorem recency_invariant {E : Type} `{Editor E}
    (choices : list (TagPosition * string)) (s : Session E) :
  NoDup (recentOf (plugin s)) ->
  (length (recentOf (plugin s)) <= 20)%nat ->
  (NoDup (recentOf (plugin (runChoices choices s)))
   /\ (length (recentOf (plugin (runChoices choices s))) <= 20)%nat)
  /\ (forall tag,
        tag ∉ recentOf (plugin s) ->
        length (recentOf (plugin s)) = 20%nat ->
        recentOf (updateRecentlyChosenTags tag (plugin s)) =
          tl (recentOf (plugin s)) ++ [tag])
  /\ (forall tag,
        tag ∈ recentOf (plugin s) ->
        exists older newer,
          recentOf (plugin s) = older ++ tag :: newer
          /\ recentOf (updateRecentlyChosenTags tag (plugin s)) =
               older ++ newer ++ [tag]
          /\ length (recentOf (updateRecentlyChosenTags tag (plugin s))) =
               length (recentOf (plugin s))).
Proof.
  intros Hnd Hlen. split; [|split].
  - revert s Hnd Hlen. induction choices as [|[span tag] rest IH];
      intros s Hnd Hlen; [done|].
    apply IH; simpl;
      destruct (onChooseSuggestion_plugin span tag s) as [-> | ->];
      try done; by apply updateRecentTags_invariant.
  - intros tag Hx Hfull. unfold recentOf in *. simpl.
    rewrite updateRecentTags_absent by done. rewrite Hfull. simpl.
    destruct (recentlyChosenTags (settings (plugin s))); [done|reflexivity].
  - intros tag Hin. unfold recentOf in *. simpl.
    destruct (array_indexOf_from_split (recentlyChosenTags (settings (plugin s)))
                tag 0) as [[Hx _]|(l1 & l2 & He & Hx & _)]; [done|].
    exists l1, l2. split; [done|].
    rewrite He in *. rewrite updateRecentTags_present by done.
    assert (length (l1 ++ l2 ++ [tag]) = length (l1 ++ tag :: l2)) as Hl.
    { rewrite !length_app. simpl. lia. }
    replace (Z.of_nat (length (l1 ++ l2 ++ [tag])) >? 20) with false
      by (symmetry; rewrite Z.gtb_ltb; apply Z.ltb_ge; lia).
    by split.
Qed.

Lemma recency_invariant_witness :
  (NoDup (recentOf (plugin (runChoices [(mkSpan 0 4 18, "#a")]
                              (mkSession "See #project/alpha and #todo" (mkPos 0 6)
                                 ["#a"; "#b"]))))
   /\ (length (recentOf (plugin (runChoices [(mkSpan 0 4 18, "#a")]
                                   (mkSession "See #project/alpha and #todo"
                                      (mkPos 0 6) ["#a"; "#b"])))) <= 20)%nat)
  /\ (forall tag,
        tag ∉ ["#a"; "#b"] ->
        length ["#a"; "#b"] = 20%nat ->
        recentOf (updateRecentlyChosenTags tag
                    (plugin (mkSession "See #project/alpha and #todo" (mkPos 0 6)
                               ["#a"; "#b"]))) =
          tl ["#a"; "#b"] ++ [tag])
  /\ (forall tag,
        tag ∈ ["#a"; "#b"] ->
        exists older newer,
          ["#a"; "#b"] = older ++ tag :: newer
          /\ recentOf (updateRecentlyChosenTags tag
                         (plugin (mkSession "See #project/alpha and #todo"
                                    (mkPos 0 6) ["#a"; "#b"]))) =
               older ++ newer ++ [tag]
          /\ length (recentOf (updateRecentlyChosenTags tag
                                 (plugin (mkSession "See #project/alpha and #todo"
                                            (mkPos 0 6) ["#a"; "#b"])))) =
               length ["#a"; "#b"]).
Proof.
  apply (recency_invariant [(mkSpan 0 4 18, "#a")]
           (mkSession "See #project/alpha and #todo" (mkPos 0 6) ["#a"; "#b"])).
  - apply (bool_decide_unpack _). vm_compute. exact I.
  - simpl. lia.
Defined.

(** * The applier *)

(** C5, with the column the code computes. Choosing a tag other than the
    sentinel puts the tag, verbatim, in the place of the text of the span
    and leaves the cursor on the span's line at the column of the span's
    start plus the length of the tag. On [See #project/alpha and #todo]
    with the cursor at column 6 the located span is columns 4 to 18, and
    choosing [#done] gives [See #done and #todo] with the cursor at
    column 9. *)
Theorem onChooseSuggestion_replaces_span :
  (handleTagClick
     (Some (editor (mkSession "See #project/alpha and #todo" (mkPos 0 6) [])))
   = Some (mkSpan 0 4 18)
   /\ onChooseSuggestion (mkSpan 0 4 18) "#done"
        (mkSession "See #project/alpha and #todo" (mkPos 0 6) []) =
      (Normal,
       {| editor := {| text := "See #done and #todo"; cursor := mkPos 0 9 |};
          plugin := {| settings := {| recentlyChosenTags := ["#done"] |};
                       savedData := Some {| recentlyChosenTags := ["#done"] |}
                    |} |}))
  /\ forall (buf : TextBuffer) (p : MyPlugin) (tagPosition : TagPosition)
       (tag : string),
       tag <> CLEAR_TAG ->
       handleTagClick (Some buf) = Some tagPosition ->
       exists before after,
         text buf =
           before +:+ getRange (from tagPosition) (to tagPosition) (text buf)
           +:+ after
         /\ JsString.length before = posToOffset (from tagPosition) (text buf)
         /\ onChooseSuggestion tagPosition tag {| editor := buf; plugin := p |} =
            (Normal,
             {| editor :=
                  {| text := before +:+ tag +:+ after;
                     cursor := mkPos (line (from tagPosition))
                                 (ch (from tagPosition) + JsString.length tag) |};
                plugin := updateRecentlyChosenTags tag p |}).
Proof.
  split; [split; reflexivity|].
  intros buf p tagPosition tag Htag Hloc.
  apply located_span_ordered in Hloc.
  destruct (textBuffer_split _ _ _ Hloc) as [Hsplit Hlen].
  eexists _, _. split; [exact Hsplit|]. split; [exact Hlen|].
  unfold onChooseSuggestion. apply String.eqb_neq in Htag. rewrite Htag.
  reflexivity.
Qed.

Lemma onChooseSuggestion_replaces_span_witness :
  exists before after,
    "a #b c" = before +:+ getRange (mkPos 0 2) (mkPos 0 4) "a #b c" +:+ after
    /\ JsString.length before = posToOffset (mkPos 0 2) "a #b c"
    /\ onChooseSuggestion (mkSpan 0 2 4) "#long"
         (mkSession "a #b c" (mkPos 0 3) []) =
       (Normal,
        {| editor :=
             {| text := before +:+ "#long" +:+ after;
                cursor := mkPos 0 (2 + JsString.length "#long") |};
           plugin := updateRecentlyChosenTags "#long"
                       (plugin (mkSession "a #b c" (mkPos 0 3) [])) |}).
Proof.
  apply (proj2 onChooseSuggestion_replaces_span
           {| text := "a #b c"; cursor := mkPos 0 3 |}
           (plugin (mkSession "a #b c" (mkPos 0 3) [])) (mkSpan 0 2 4) "#long").
  - discriminate.
  - reflexivity.
Defined.

(** C5 as first written fails: in its scenario the cursor ends at column 9,
    not at column 10. *)
Lemma done_scenario_cursor_column :
  ch (getCursor
        (editor
           (snd (onChooseSuggestion (mkSpan 0 4 18) "#done"
                   (mkSession "See #project/alpha and #todo" (mkPos 0 6) [])))))
  = 9
  /\ ch (getCursor
           (editor
              (snd (onChooseSuggestion (mkSpan 0 4 18) "#done"
                      (mkSession "See #project/alpha and #todo" (mkPos 0 6) [])))))
     <> 10.
Proof. split; [reflexivity|discriminate]. Qed.

(** C6. Choosing the sentinel removes the text of the span and nothing
    else, leaves the cursor at the start of the span and does not touch the
    plugin's recency list. Clearing the span of [#todo] in [x #todo y]
    gives [x  y] with the cursor where [#todo] began. *)
Theorem onChooseSuggestion_clears_span :
  (handleTagClick (Some (editor (mkSession "x #todo y" (mkPos 0 4) ["#todo"])))
   = Some (mkSpan 0 2 7)
   /\ onChooseSuggestion (mkSpan 0 2 7) CLEAR_TAG
        (mkSession "x #todo y" (mkPos 0 4) ["#todo"]) =
      (Normal, mkSession "x  y" (mkPos 0 2) ["#todo"]))
  /\ forall (buf : TextBuffer) (p : MyPlugin) (tagPosition : TagPosition),
       handleTagClick (Some buf) = Some tagPosition ->
       exists before after,
         text buf =
           before +:+ getRange (from tagPosition) (to tagPosition) (text buf)
           +:+ after
         /\ JsString.length before = posToOffset (from tagPosition) (text buf)
         /\ onChooseSuggestion tagPosition CLEAR_TAG
              {| editor := buf; plugin := p |} =
            (Normal,
             {| editor := {| text := before +:+ after;
                             cursor := from tagPosition |};
                plugin := p |}).
Proof.
  split; [split; reflexivity|].
  intros buf p tagPosition Hloc.
  apply located_span_ordered in Hloc.
  destruct (textBuffer_split _ _ _ Hloc) as [Hsplit Hlen].
  eexists _, _. split; [exact Hsplit|]. split; [exact Hlen|]. reflexivity.
Qed.

Lemma onChooseSuggestion_clears_span_witness :
  exists before after,
    "a #b c" = before +:+ getRange (mkPos 0 2) (mkPos 0 4) "a #b c" +:+ after
    /\ JsString.length before = posToOffset (mkPos 0 2) "a #b c"
    /\ onChooseSuggestion (mkSpan 0 2 4) CLEAR_TAG
         (mkSession "a #b c" (mkPos 0 3) ["#b"]) =
       (Normal,
        {| editor := {| text := before +:+ after; cursor := mkPos 0 2 |};
           plugin := plugin (mkSession "a #b c" (mkPos 0 3) ["#b"]) |}).
Proof.
  apply (proj2 onChooseSuggestion_clears_span
           {| text := "a #b c"; cursor := mkPos 0 3 |}
           (plugin (mkSession "a #b c" (mkPos 0 3) ["#b"])) (mkSpan 0 2 4)).
  reflexivity.
Defined.

(** C9. When the editor rejects the replacement of the text, the applier
    stops there: it completes abruptly and editor, cursor and recency list
    are as they were. The text is replaced before anything else is done. *)
Theorem onChooseSuggestion_rejected_edit {E : Type} `{Editor E}
    (tagPosition : TagPosition) (tag : string) (s : Session E) :
  replaceRange (if String.eqb tag CLEAR_TAG then "" else tag)
    (from tagPosition) (to tagPosition) (editor s) = None ->
  onChooseSuggestion tagPosition tag s = (Throw, s).
Proof.
  intros Hrej. unfold onChooseSuggestion, seq, callEditor.
  destruct (String.eqb tag CLEAR_TAG); by rewrite Hrej.
Qed.

Lemma onChooseSuggestion_rejected_edit_witness :
  onChooseSuggestion (mkSpan 0 2 7) "#done"
    {| editor := {| frozen := {| text := "x #todo y"; cursor := mkPos 0 4 |} |};
       plugin := {| settings := {| recentlyChosenTags := ["#todo"] |};
                    savedData := None |} |} =
  (Throw,
   {| editor := {| frozen := {| text := "x #todo y"; cursor := mkPos 0 4 |} |};
      plugin := {| settings := {| recentlyChosenTags := ["#todo"] |};
                   savedData := None |} |}).
Proof.
  apply (onChooseSuggestion_rejected_edit (mkSpan 0 2 7) "#done"). reflexivity.
Defined.

(** * The suggestions *)

(** C7. For a query that is not empty and that, lower-cased, occurs in one
    of the words [clear], [remove], [delete], the result is the sentinel
    followed by the entries the query selects. The query [del] brings the
    sentinel although it does not occur in the sentinel's text; a query
    that merely holds a keyword, such as [cleared], does not. *)
Theorem getSuggestions_clear_intent (allTags : list string) (query : string) :
  query <> "" ->
  clearIntent query ->
  getSuggestions allTags query =
    CLEAR_TAG :: List.filter (matchesQuery query) allTags
  /\ head (getSuggestions allTags "del") = Some CLEAR_TAG
  /\ ~ isSubstring "del" (JsString.toLowerCase CLEAR_TAG)
  /\ getSuggestions allTags "cleared" =
       List.filter (matchesQuery "cleared") allTags.
Proof.
  intros Hq Hc. split; [|split; [reflexivity|split; [|reflexivity]]].
  - rewrite getSuggestions_eq. apply String.eqb_neq in Hq. rewrite Hq.
    apply clearIntent_spec in Hc. by rewrite Hc.
  - rewrite <- includes_spec. by vm_compute.
Qed.

Lemma getSuggestions_clear_intent_witness :
  getSuggestions [CLEAR_TAG; "#a"; "#Delta"] "DEL" =
    CLEAR_TAG :: List.filter (matchesQuery "DEL") [CLEAR_TAG; "#a"; "#Delta"]
  /\ head (getSuggestions [CLEAR_TAG; "#a"; "#Delta"] "del") = Some CLEAR_TAG
  /\ ~ isSubstring "del" (JsString.toLowerCase CLEAR_TAG)
  /\ getSuggestions [CLEAR_TAG; "#a"; "#Delta"] "cleared" =
       List.filter (matchesQuery "cleared") [CLEAR_TAG; "#a"; "#Delta"].
Proof.
  apply (getSuggestions_clear_intent [CLEAR_TAG; "#a"; "#Delta"] "DEL").
  - discriminate.
  - apply clearIntent_spec. reflexivity.
Defined.

(** C8, with the clear rule. The empty query returns the catalog as it is,
    and a catalog built by [loadAllTags] has the sentinel first. A query
    that is not empty returns the catalog entries other than the sentinel
    that hold the query, case ignored, in catalog order; the sentinel is
    put in front of them exactly when the lower-cased query occurs in
    [clear], [remove] or [delete]. *)
Theorem getSuggestions_filter (allTags : list string) (query : string) :
  query <> "" ->
  getSuggestions allTags "" = allTags
  /\ (forall localeCompare obj recency,
        head (getSuggestions (loadAllTags localeCompare obj recency) "")
        = Some CLEAR_TAG)
  /\ (exists sentinel,
        getSuggestions allTags query =
          sentinel ++ List.filter (matchesQuery query) allTags
        /\ (clearIntent query -> sentinel = [CLEAR_TAG])
        /\ (~ clearIntent query -> sentinel = []))
  /\ (forall tag,
        matchesQuery query tag = true <->
        tag <> CLEAR_TAG
        /\ isSubstring (JsString.toLowerCase query) (JsString.toLowerCase tag)).
Proof.
  intros Hq. split; [reflexivity|]. split; [reflexivity|].
  split; [|intros tag; apply matchesQuery_spec].
  rewrite getSuggestions_eq. apply String.eqb_neq in Hq. rewrite Hq.
  pose proof (clearIntent_spec query) as Hspec.
  destruct (_ || _).
  - exists [CLEAR_TAG]. split; [reflexivity|]. split; [done|].
    intros Hn. exfalso. by apply Hn, Hspec.
  - exists []. split; [reflexivity|]. split; [|done].
    intros Hc. apply Hspec in Hc. discriminate.
Qed.

Lemma getSuggestions_filter_witness :
  getSuggestions [CLEAR_TAG; "#a"; "#Delta"] "" = [CLEAR_TAG; "#a"; "#Delta"]
  /\ (forall localeCompare obj recency,
        head (getSuggestions (loadAllTags localeCompare obj recency) "")
        = Some CLEAR_TAG)
  /\ (exists sentinel,
        getSuggestions [CLEAR_TAG; "#a"; "#Delta"] "elt" =
          sentinel
          ++ List.filter (matchesQuery "elt") [CLEAR_TAG; "#a"; "#Delta"]
        /\ (clearIntent "elt" -> sentinel = [CLEAR_TAG])
        /\ (~ clearIntent "elt" -> sentinel = []))
  /\ (forall tag,
        matchesQuery "elt" tag = true <->
        tag <> CLEAR_TAG
        /\ isSubstring (JsString.toLowerCase "elt") (JsString.toLowerCase tag)).
Proof.
  apply (getSuggestions_filter [CLEAR_TAG; "#a"; "#Delta"] "elt").
  discriminate.
Defined.

(** C8 as first written fails: for the query [del] the result holds the
    sentinel, which is not among the entries that the query selects. *)
Lemma getSuggestions_del_not_only_matches :
  getSuggestions [CLEAR_TAG; "#a"] "del" = [CLEAR_TAG]
  /\ List.filter (matchesQuery "del") [CLEAR_TAG; "#a"] = []
  /\ getSuggestions [CLEAR_TAG; "#a"] "del"
     <> List.filter (matchesQuery "del") [CLEAR_TAG; "#a"].
Proof. split; [reflexivity|]. split; [reflexivity|discriminate]. Qed.

(** * More about the locator *)

Section LocatorCoverage.

Import JsString TagRegExp.

Lemma str_app_inv_length b x b' x' :
  b +:+ x = b' +:+ x' -> length b = length b' -> b = b' /\ x = x'.
Proof.
  revert b'; induction b as [|c b IH]; intros [|c' b'] He Hl.
  - done.
  - rewrite str_length_cons in Hl. change (length "") with 0 in Hl.
    pose proof (str_length_nonneg b'). lia.
  - rewrite str_length_cons in Hl. change (length "") with 0 in Hl.
    pose proof (str_length_nonneg b). lia.
  - change (String c (b +:+ x) = String c' (b' +:+ x')) in He.
    injection He as <- He. rewrite !str_length_cons in Hl.
    destruct (IH b' He) as [<- <-]; [lia|done].
Qed.

Lemma hash_char c : charCode c = 35 <-> c = "#"%char.
Proof.
  split; [|by intros ->]. intros Hc. rewrite <- (ascii_N_embedding c).
  unfold charCode in Hc. replace (N_of_ascii c) with 35%N by lia. reflexivity.
Qed.

Lemma execTagAt_run c r m :
  execTagAt (String c r) = Some m -> m = String c (tagChars r).
Proof.
  unfold execTagAt. destruct (charCode c =? 35); [|discriminate].
  destruct (tagChars r); [discriminate|]. by intros [= <-].
Qed.

(** In a chain, a column after the start of a span and up to its end is
    first held by that span. *)
Lemma find_contains_chained lo l1 sp l2 col :
  chained lo (l1 ++ sp :: l2) ->
  fst sp < col <= snd sp ->
  find (contains col) (l1 ++ sp :: l2) = Some sp.
Proof.
  revert lo; induction l1 as [|x l1 IH]; intros lo Hch Hcol.
  - simpl. unfold contains.
    replace (fst sp <=? col) with true by (symmetry; apply Z.leb_le; lia).
    replace (col <=? snd sp) with true by (symmetry; apply Z.leb_le; lia).
    reflexivity.
  - pose proof (chained_before lo (x :: l1) sp l2 x Hch (or_introl eq_refl)).
    simpl. unfold contains at 1.
    replace (col <=? snd x) with false by (symmetry; apply Z.leb_gt; lia).
    rewrite andb_false_r. simpl in Hch. destruct Hch as (_ & _ & Hch).
    by apply (IH (snd x)).
Qed.

(** A place of the line where the full pattern matches [tag] is one of the
    reported matches. *)
Lemma occurrence_in_matchAll before tag after :
  execTagAt (tag +:+ after) = Some tag ->
  In (length before, tag) (matchAll (before +:+ tag +:+ after)).
Proof.
  intros Htag. destruct (execTagAt_Some _ _ Htag) as [_ Hw].
  destruct Hw as (c & d & body & -> & Hc & Hd).
  destruct (matchAll_complete before c d (body +:+ after) Hc Hd) as (m & Hin).
  change (String c (String d body) +:+ after)
    with (String c (String d (body +:+ after))) in *.
  destruct (matchAll_sound _ _ _ Hin) as (b' & a' & He & Hl & Hx).
  apply str_app_inv_length in He as [<- He]; [|done].
  rewrite <- He, Htag in Hx. injection Hx as <-. exact Hin.
Qed.

Lemma locate_occurrence_inside (before tag after : string) (col : Z) :
  execTagAt (tag +:+ after) = Some tag ->
  length before < col <= length before + length tag ->
  locate (before +:+ tag +:+ after) col =
    Some (length before, length before + length tag).
Proof.
  intros Htag Hcol.
  pose proof (occurrence_in_matchAll before tag after Htag) as Hin.
  apply (in_map spanOf) in Hin. fold (tagSpans (before +:+ tag +:+ after)) in Hin.
  pose proof (tagSpans_chained (before +:+ tag +:+ after)) as Hch.
  rewrite locate_full by (intros He; by rewrite He in Hin).
  apply in_split in Hin as (l1 & l2 & He). rewrite He in *.
  by apply (find_contains_chained 0).
Qed.

(** X1. Wherever a tag stands in a line, a cursor after its [#] and up to
    its end is resolved to that tag. *)
Theorem locate_inside_occurrence (before tag after : string) (col : Z) :
  execTagAt (tag +:+ after) = Some tag ->
  length before < col <= length before + length tag ->
  locate (before +:+ tag +:+ after) col =
    Some (length before, length before + length tag).
Proof. intros. eapply locate_occurrence_inside; eassumption. Qed.

Lemma locate_inside_occurrence_witness :
  locate ("note " +:+ "#to-do" +:+ ", later") 11 = Some (5, 5 + 6).
Proof.
  apply (locate_inside_occurrence "note " "#to-do" ", later" 11).
  - reflexivity.
  - unfold length. simpl. lia.
Defined.

Lemma locate_span_shape (lineText : string) (col tagStart tagEnd : Z) :
  locate lineText col = Some (tagStart, tagEnd) ->
  exists before body after,
    lineText = before +:+ String "#" body +:+ after
    /\ body = tagChars (body +:+ after)
    /\ tagStart = length before
    /\ tagEnd = tagStart + 1 + length body.
Proof.
  destruct (tagSpans lineText) as [|sp rest] eqn:Hs.
  - rewrite locate_fallback by done.
    destruct (match_partial lineText) as [[i m]|] eqn:Hm; [|discriminate].
    apply search_partial_sound in Hm as (before & c & r & -> & Hc & -> & ->).
    apply hash_char in Hc as ->.
    change (spanOf (0 + length before, String "#" (tagChars r)))
      with (0 + length before,
            0 + length before + length (String "#" (tagChars r))).
    intros [= <- <-].
    pose proof (prefix_app _ _ (tagChars_prefix r)) as Hr.
    exists before, (tagChars r), (drop (String.length (tagChars r)) r).
    rewrite str_app_cons, <- Hr, str_length_cons.
    split; [done|]. split; [done|]. lia.
  - rewrite locate_full by by rewrite Hs. intros Hf.
    apply find_some in Hf as [Hin _]. unfold tagSpans in Hin.
    apply in_map_iff in Hin as ([i m] & Hsp & Hin).
    change (spanOf (i, m)) with (i, i + length m) in Hsp.
    injection Hsp as <- <-.
    apply matchAll_sound in Hin as (before & after & -> & <- & Hx).
    destruct (execTagAt_Some _ _ Hx) as [_ (c & d & body & -> & Hc & _)].
    apply hash_char in Hc as ->.
    change (String "#" (String d body) +:+ after)
      with (String "#" (String d body +:+ after)) in *.
    apply execTagAt_run in Hx. injection Hx as Hx.
    exists before, (String d body), after.
    rewrite (str_length_cons "#").
    split; [done|]. split; [done|]. lia.
Qed.

(** X2. A span the locator answers with lies in the line, starts at a [#]
    and ends where the run of tag characters after the [#] ends. *)
Theorem locate_span_is_tag (lineText : string) (col tagStart tagEnd : Z) :
  locate lineText col = Some (tagStart, tagEnd) ->
  exists before body after,
    lineText = before +:+ String "#" body +:+ after
    /\ body = tagChars (body +:+ after)
    /\ tagStart = length before
    /\ tagEnd = tagStart + 1 + length body.
Proof. intros. eapply locate_span_shape; eassumption. Qed.

Lemma locate_span_is_tag_witness :
  exists before body after,
    "a #b/c, d" = before +:+ String "#" body +:+ after
    /\ body = tagChars (body +:+ after)
    /\ 2 = length before
    /\ 6 = 2 + 1 + length body.
Proof. apply (locate_span_is_tag "a #b/c, d" 4 2 6). reflexivity. Defined.

(** X3. On a line that has a full match, a span is only ever answered
    when it holds the cursor. *)
Theorem locate_holds_cursor (lineText : string) (col tagStart tagEnd : Z) :
  tagSpans lineText <> [] ->
  locate lineText col = Some (tagStart, tagEnd) ->
  tagStart <= col <= tagEnd.
Proof.
  intros Hne. rewrite locate_full by done. intros Hf.
  apply find_some in Hf as [_ Hc]. unfold contains in Hc. simpl in Hc.
  apply andb_true_iff in Hc as [?%Z.leb_le ?%Z.leb_le]. lia.
Qed.

Lemma locate_holds_cursor_witness : 2 <= 4 <= 6.
Proof.
  apply (locate_holds_cursor "a #b/c, d" 4 2 6); [discriminate|reflexivity].
Defined.

End LocatorCoverage.

Section FallbackCoverage.

Import JsString TagRegExp.

Lemma noHash_cons a s : charCode a <> 35 -> noHash s -> noHash (String a s).
Proof.
  intros Ha Hs (pre & post & He). destruct pre as [|b pre].
  - injection He as -> _. by apply Ha.
  - change (String b pre +:+ "#" +:+ post)
      with (String b (pre +:+ "#" +:+ post)) in He.
    injection He as _ ->. apply Hs. by exists pre, post.
Qed.

Lemma search_partial_first s : forall p i m,
  search_partial p s = Some (i, m) ->
  exists before r,
    s = before +:+ String "#" r /\ noHash before
    /\ m = String "#" (tagChars r) /\ i = p + length before.
Proof.
  induction s as [|a s IH]; intros p i m Hs; [discriminate|].
  simpl in Hs. destruct (charCode a =? 35) eqn:Ha.
  - injection Hs as <- <-. apply Z.eqb_eq, hash_char in Ha as ->.
    exists "", s. repeat split.
    + intros (pre & post & He). by destruct pre.
    + change (length "") with 0. lia.
  - apply IH in Hs as (before & r & -> & Hn & -> & ->).
    exists (String a before), r. repeat split.
    + apply noHash_cons; [by apply Z.eqb_neq|done].
    + rewrite str_length_cons. lia.
Qed.

Lemma search_partial_complete pre post p :
  search_partial p (pre +:+ String "#" post) <> None.
Proof.
  revert p; induction pre as [|a pre IH]; intros p; [done|].
  change (String a pre +:+ String "#" post)
    with (String a (pre +:+ String "#" post)).
  simpl. destruct (charCode a =? 35); [done|apply IH].
Qed.

Lemma tagSpans_hash lineText sp :
  In sp (tagSpans lineText) -> isSubstring "#" lineText.
Proof.
  unfold tagSpans. rewrite in_map_iff. intros ([i m] & _ & Hin).
  apply matchAll_sound in Hin as (before & after & -> & _ & Hx).
  destruct (execTagAt_Some _ _ Hx) as [_ (c & d & body & -> & Hc & _)].
  apply hash_char in Hc as ->. by exists before, (String d body +:+ after).
Qed.

(** X4. On a line without a full match the cursor plays no part: the
    answer is the same for every column, and when there is one it is the
    first [#] of the line, alone. *)
Theorem locate_without_match_ignores_cursor (lineText : string) (col col' : Z) :
  tagSpans lineText = [] ->
  locate lineText col = locate lineText col'
  /\ forall tagStart tagEnd,
       locate lineText col = Some (tagStart, tagEnd) ->
       exists before after,
         lineText = before +:+ String "#" after
         /\ noHash before
         /\ tagStart = length before
         /\ tagEnd = tagStart + 1.
Proof.
  intros Hs. rewrite !locate_fallback by done. split; [done|].
  intros tagStart tagEnd Hloc.
  destruct (match_partial lineText) as [[i m]|] eqn:Hm; [|discriminate].
  destruct (match_partial_bare _ _ _ Hs Hm) as [-> Hsp].
  simpl in Hloc. rewrite Hsp in Hloc. injection Hloc as <- <-.
  apply search_partial_first in Hm as (before & r & -> & Hn & _ & ->).
  exists before, r. repeat split; try done; lia.
Qed.

Lemma locate_without_match_ignores_cursor_witness :
  locate "a # b" 0 = locate "a # b" 4
  /\ forall tagStart tagEnd,
       locate "a # b" 0 = Some (tagStart, tagEnd) ->
       exists before after,
         "a # b" = before +:+ String "#" after
         /\ noHash before
         /\ tagStart = length before
         /\ tagEnd = tagStart + 1.
Proof.
  apply (locate_without_match_ignores_cursor "a # b" 0 4). reflexivity.
Defined.

Lemma locate_none_iff_noHash (lineText : string) :
  (forall col, locate lineText col = None) <-> noHash lineText.
Proof.
  split.
  - intros Hnone (pre & post & He).
    destruct (tagSpans lineText) as [|[s e] rest] eqn:Hs.
    + specialize (Hnone 0). rewrite locate_fallback in Hnone by done.
      destruct (match_partial lineText) eqn:Hm; [discriminate|].
      apply (search_partial_complete pre post 0).
      rewrite He in Hm. exact Hm.
    + specialize (Hnone s). rewrite locate_full in Hnone by by rewrite Hs.
      pose proof (tagSpans_chained lineText) as Hch. rewrite Hs in *.
      simpl in Hch, Hnone. unfold contains in Hnone. simpl in Hnone.
      rewrite Z.leb_refl in Hnone.
      replace (s <=? e) with true in Hnone
        by (symmetry; apply Z.leb_le; lia).
      discriminate.
  - intros Hn col.
    assert (tagSpans lineText = []) as Hs.
    { destruct (tagSpans lineText) as [|sp rest] eqn:Hs; [done|].
      exfalso. apply Hn, (tagSpans_hash lineText sp). rewrite Hs. by left. }
    rewrite locate_fallback by done.
    destruct (match_partial lineText) as [[i m]|] eqn:Hm; [|done].
    exfalso. apply Hn.
    apply search_partial_first in Hm as (before & r & -> & _).
    by exists before, r.
Qed.

(** X5. The locator answers with nothing at every column exactly for the
    lines that hold no [#]. *)
Theorem locate_nothing_iff_no_hash (lineText : string) :
  (forall col, locate lineText col = None) <-> noHash lineText.
Proof. intros. eapply locate_none_iff_noHash; eassumption. Qed.

End FallbackCoverage.

(** * More about the recency list *)

Section RecencyCoverage.

(** The list an update works on once the first occurrence of the tag is
    taken out, and what the update makes of it. *)
Lemma updateRecentTags_shape l tag :
  exists mid,
    ((mid = l /\ (tag ∉ l))
     \/ exists l1 l2, l = l1 ++ tag :: l2 /\ (tag ∉ l1) /\ mid = l1 ++ l2)
    /\ updateRecentTags l tag =
         (if Z.of_nat (length mid) + 1 >? 20 then tl mid else mid) ++ [tag].
Proof.
  destruct (array_indexOf_from_split l tag 0)
    as [[Hx _]|(l1 & l2 & -> & Hx & _)].
  - exists l. split; [by left|]. rewrite updateRecentTags_absent by done.
    destruct (Z.of_nat (length l) + 1 >? 20) eqn:Hc; [|done].
    destruct l; [discriminate|reflexivity].
  - exists (l1 ++ l2). split; [right; by exists l1, l2|].
    rewrite updateRecentTags_present by done.
    rewrite (List.app_assoc l1 l2 [tag]), length_app. simpl length.
    replace (Z.of_nat (length (l1 ++ l2) + 1))
      with (Z.of_nat (length (l1 ++ l2)) + 1) by lia.
    destruct (Z.of_nat (length (l1 ++ l2)) + 1 >? 20) eqn:Hc; [|done].
    destruct (l1 ++ l2); [discriminate|reflexivity].
Qed.

Lemma fold_updateRecentTags_tail (l chosen : list string) :
  NoDup chosen ->
  (length chosen <= 20)%nat ->
  exists older, fold_left updateRecentTags chosen l = older ++ chosen.
Proof.
  induction chosen as [|x chosen IH] using rev_ind; intros Hnd Hlen.
  - exists l. by rewrite app_nil_r.
  - apply NoDup_app in Hnd as (Hnd & Hx & _).
    rewrite length_app in Hlen. simpl in Hlen.
    destruct IH as [older IH]; [done|lia|].
    rewrite fold_left_app. simpl. rewrite IH.
    assert (x ∉ chosen) as Hxc.
    { intros Hin. apply (Hx x Hin). left. }
    destruct (updateRecentTags_shape (older ++ chosen) x)
      as (mid & Hmid & ->).
    assert (exists older', mid = older' ++ chosen) as [older' ->].
    { destruct Hmid as [[-> _]|(l1 & l2 & He & Hl1 & ->)]; [by exists older|].
      apply app_eq_inv in He as [(k & -> & Hk)|(k & -> & Hk)].
      - destruct k as [|y k].
        + exfalso. apply Hxc. simpl in Hk. rewrite <- Hk. left.
        + injection Hk as <- ->. exists (l1 ++ k).
          by rewrite <- List.app_assoc.
      - exfalso. apply Hxc. rewrite Hk. apply elem_of_app. right. left. }
    destruct (Z.of_nat (length (older' ++ chosen)) + 1 >? 20) eqn:Hc.
    + destruct older' as [|y older'].
      * apply Z.gtb_lt in Hc. simpl in Hc. lia.
      * exists older'. simpl. by rewrite <- List.app_assoc.
    + exists older'. by rewrite <- List.app_assoc.
Qed.

(** X6. After choosing up to 20 different tags one after the other, the
    recency list ends with exactly these tags, in the order in which they
    were chosen, whatever the list was before. *)
Theorem recent_choices_are_the_tail (l chosen : list string) :
  NoDup chosen ->
  (length chosen <= 20)%nat ->
  exists older, fold_left updateRecentTags chosen l = older ++ chosen.
Proof. intros. eapply fold_updateRecentTags_tail; eassumption. Qed.

Lemma recent_choices_are_the_tail_witness :
  exists older,
    fold_left updateRecentTags ["#b"; "#a"; "#c"] ["#a"; "#z"] =
    older ++ ["#b"; "#a"; "#c"].
Proof.
  apply (recent_choices_are_the_tail ["#a"; "#z"] ["#b"; "#a"; "#c"]).
  - apply (bool_decide_unpack _). vm_compute. exact I.
  - simpl. lia.
Defined.

(** X7. The length after an update: a tag of the list costs an entry only
    when the list is longer than 20, a new tag adds one only below 20. So
    a list that was loaded with more than 20 entries is not cut back to 20
    by an update. *)
Theorem updateRecentTags_length (l : list string) (tag : string) :
  length (updateRecentTags l tag) =
  if bool_decide (tag ∈ l)
  then (if (20 <? length l)%nat then length l - 1 else length l)%nat
  else (if (20 <=? length l)%nat then length l else length l + 1)%nat.
Proof.
  destruct (updateRecentTags_shape l tag) as (mid & Hmid & ->).
  assert (((tag ∉ l) /\ length l = length mid)
          \/ (tag ∈ l /\ length l = S (length mid))) as Hcase.
  { destruct Hmid as [[-> Hx]|(l1 & l2 & -> & Hx & ->)]; [by left|right].
    split; [apply elem_of_app; right; left|].
    rewrite !length_app. simpl. lia. }
  clear Hmid. rewrite length_app. simpl length.
  assert (length (if Z.of_nat (length mid) + 1 >? 20 then tl mid else mid) =
          if (20 <=? length mid)%nat then (length mid - 1)%nat
          else length mid) as ->.
  { destruct (Z.of_nat (length mid) + 1 >? 20) eqn:Hc.
    - apply Z.gtb_lt in Hc.
      replace (20 <=? length mid)%nat with true
        by (symmetry; apply Nat.leb_le; lia).
      destruct mid; simpl; lia.
    - rewrite Z.gtb_ltb in Hc. apply Z.ltb_ge in Hc.
      replace (20 <=? length mid)%nat with false
        by (symmetry; apply Nat.leb_gt; lia).
      done. }
  destruct Hcase as [[Hx Hl]|[Hx Hl]].
  - rewrite bool_decide_eq_false_2 by done. rewrite Hl.
    destruct (Nat.leb_spec 20 (length mid)); lia.
  - rewrite bool_decide_eq_true_2 by done. rewrite Hl.
    destruct (Nat.leb_spec 20 (length mid));
      destruct (Nat.ltb_spec 20 (S (length mid))); lia.
Qed.

Lemma updateRecentTags_order (l : list string) (tag : string) :
  exists kept,
    updateRecentTags l tag = kept ++ [tag]
    /\ kept `sublist_of` l
    /\ (NoDup l -> tag ∉ kept).
Proof.
  destruct (updateRecentTags_shape l tag) as (mid & Hmid & ->).
  assert (mid `sublist_of` l /\ (NoDup l -> tag ∉ mid)) as [Hsub Hnot].
  { destruct Hmid as [[-> Hx]|(l1 & l2 & -> & Hx & ->)]; [done|]. split.
    - apply sublist_app; [done|]. by apply sublist_cons.
    - intros Hnd. apply NoDup_app in Hnd as (_ & _ & Hnd).
      apply NoDup_cons in Hnd as [Hx2 _].
      rewrite elem_of_app. tauto. }
  eexists. split; [reflexivity|].
  destruct (Z.of_nat (length mid) + 1 >? 20); [|done].
  destruct mid as [|y mid]; [done|]. simpl. split.
  - etrans; [|exact Hsub]. by apply sublist_cons.
  - intros Hnd Hin. apply (Hnot Hnd). by right.
Qed.

(** X8. An update puts the tag last and leaves the other entries in the
    order they had: what precedes the tag is the old list with entries
    taken out, and for a list without repetition the tag is not among
    them. *)
Theorem updateRecentTags_keeps_order (l : list string) (tag : string) :
  exists kept,
    updateRecentTags l tag = kept ++ [tag]
    /\ kept `sublist_of` l
    /\ (NoDup l -> tag ∉ kept).
Proof. intros. eapply updateRecentTags_order; eassumption. Qed.

End RecencyCoverage.

(** * More about the catalog and the suggestions *)

Section CatalogCoverage.

Variable localeCompare : string -> string -> Z.

Lemma elem_of_loadAllTags obj recency x :
  x ∈ loadAllTags localeCompare obj recency <->
  x = CLEAR_TAG \/ x ∈ allVaultTags obj.
Proof.
  rewrite loadAllTags_eq, elem_of_cons, elem_of_app.
  rewrite (sort_Permutation localeCompare), keptRecent_elem, remainder_elem.
  rewrite keptRecent_elem.
  destruct (decide (x ∈ recency)); tauto.
Qed.

(** X9. For a vault and a recency list without repetition the catalog is
    the sentinel and the vault tags, each once, in some order: no vault tag
    is left out and a recency entry that the vault no longer has is not
    listed. *)
Theorem loadAllTags_lists_the_vault (obj : option TagsObject)
    (recency : list string) :
  NoDup (allVaultTags obj) ->
  NoDup recency ->
  loadAllTags localeCompare obj recency ≡ₚ CLEAR_TAG :: allVaultTags obj.
Proof.
  intros Hv Hr. apply NoDup_Permutation.
  - rewrite loadAllTags_eq. apply catalog_NoDup; [done..|].
    apply sort_Permutation.
  - apply NoDup_cons. split; [apply CLEAR_TAG_not_vault|done].
  - intros x. by rewrite elem_of_loadAllTags, elem_of_cons.
Qed.

(** X10. Whatever the host's index and the stored recency list hold, the
    catalog is the sentinel followed by entries that all begin with [#]:
    the sentinel is there once, and no tag can pass for it. *)
Theorem loadAllTags_one_sentinel (obj : option TagsObject)
    (recency : list string) :
  exists tags,
    loadAllTags localeCompare obj recency = CLEAR_TAG :: tags
    /\ Forall (fun tag => JsString.startsWith tag "#" = true) tags
    /\ CLEAR_TAG ∉ tags.
Proof.
  eexists. split; [apply loadAllTags_eq|].
  assert (forall x,
            x ∈ keptRecent (allVaultTags obj) recency ++
                JsArray.sort localeCompare
                  (remainder (allVaultTags obj)
                     (keptRecent (allVaultTags obj) recency)) ->
            x ∈ allVaultTags obj) as Hsub.
  { intros x. rewrite elem_of_app, (sort_Permutation localeCompare).
    rewrite keptRecent_elem, remainder_elem. tauto. }
  split.
  - apply Forall_forall. intros x Hx. by apply (allVaultTags_hash obj), Hsub.
  - intros Hin. by apply (CLEAR_TAG_not_vault obj), Hsub.
Qed.

End CatalogCoverage.

Lemma loadAllTags_lists_the_vault_witness :
  loadAllTags codeUnitCompare (Some [("#b", 2); ("c", 1); ("#a", 3)])
    ["#zz"; "#c"]
  ≡ₚ CLEAR_TAG :: allVaultTags (Some [("#b", 2); ("c", 1); ("#a", 3)]).
Proof.
  apply (loadAllTags_lists_the_vault codeUnitCompare).
  - apply (bool_decide_unpack _). vm_compute. exact I.
  - apply (bool_decide_unpack _). vm_compute. exact I.
Defined.

Section SuggestionCoverage.

Import JsString.


Lemma toLowerCase_empty s : toLowerCase s = "" <-> s = "".
Proof. by destruct s. Qed.


Lemma clearIntent_bool query :
  clearIntent query <->
  includes "clear" (toLowerCase query)
  || includes "remove" (toLowerCase query)
  || includes "delete" (toLowerCase query) = true.
Proof. symmetry. apply clearIntent_spec. Qed.

(** The members of a result for a query that is not empty. *)
Lemma elem_of_getSuggestions allTags query x :
  query <> "" ->
  x ∈ getSuggestions allTags query <->
  (x = CLEAR_TAG /\ clearIntent query)
  \/ (x ∈ allTags /\ matchesQuery query x = true).
Proof.
  intros Hq. rewrite getSuggestions_eq. apply String.eqb_neq in Hq.
  rewrite Hq, clearIntent_bool.
  destruct (_ || _); rewrite ?elem_of_cons, filter_elem; intuition congruence.
Qed.


(** X11. The suggestions for any query hold nothing but entries of the
    catalog and the sentinel, and no entry twice when the catalog has no
    entry twice. *)
Theorem getSuggestions_from_catalog (allTags : list string) (query : string) :
  NoDup allTags ->
  NoDup (getSuggestions allTags query)
  /\ forall x, x ∈ getSuggestions allTags query -> x = CLEAR_TAG \/ x ∈ allTags.
Proof.
  intros Hnd. rewrite getSuggestions_eq.
  destruct (String.eqb query ""); [by auto|].
  assert (NoDup (List.filter (matchesQuery query) allTags)) as Hf
    by by apply filter_NoDup.
  assert (CLEAR_TAG ∉ List.filter (matchesQuery query) allTags) as Hc.
  { rewrite filter_elem, matchesQuery_spec. tauto. }
  destruct (_ || _); split.
  - by apply NoDup_cons.
  - intros x. rewrite elem_of_cons, filter_elem. tauto.
  - done.
  - intros x. rewrite filter_elem. tauto.
Qed.

Lemma getSuggestions_from_catalog_witness :
  NoDup (getSuggestions [CLEAR_TAG; "#a"; "#Delta"] "e")
  /\ forall x,
       x ∈ getSuggestions [CLEAR_TAG; "#a"; "#Delta"] "e" ->
       x = CLEAR_TAG \/ x ∈ [CLEAR_TAG; "#a"; "#Delta"].
Proof.
  apply (getSuggestions_from_catalog [CLEAR_TAG; "#a"; "#Delta"] "e").
  apply (bool_decide_unpack _). vm_compute. exact I.
Defined.

(** X12. Queries that differ only in the case of their letters get the
    same suggestions. *)
Theorem getSuggestions_ignores_case (allTags : list string)
    (query query' : string) :
  toLowerCase query = toLowerCase query' ->
  getSuggestions allTags query = getSuggestions allTags query'.
Proof.
  intros Hq. unfold getSuggestions. rewrite Hq.
  assert (String.eqb query "" = String.eqb query' "") as ->; [|done].
  destruct (String.eqb_spec query' "") as [->|Hne].
  - apply String.eqb_eq, toLowerCase_empty. by rewrite Hq.
  - apply String.eqb_neq. intros ->. apply Hne, toLowerCase_empty.
    by rewrite <- Hq.
Qed.

Lemma getSuggestions_ignores_case_witness :
  getSuggestions [CLEAR_TAG; "#a"; "#Delta"] "DeL" =
  getSuggestions [CLEAR_TAG; "#a"; "#Delta"] "dEl".
Proof.
  apply (getSuggestions_ignores_case [CLEAR_TAG; "#a"; "#Delta"] "DeL" "dEl").
  reflexivity.
Defined.



(** X14. Every tag of the vault is offered for every query that is not
    empty and occurs in the tag, case ignored. *)
Theorem vault_tag_is_suggested (localeCompare : string -> string -> Z)
    (obj : option TagsObject) (recency : list string) (tag query : string) :
  tag ∈ allVaultTags obj ->
  query <> "" ->
  isSubstring (toLowerCase query) (toLowerCase tag) ->
  tag ∈ getSuggestions (loadAllTags localeCompare obj recency) query.
Proof.
  intros Hin Hq Hsub. apply elem_of_getSuggestions; [done|]. right. split.
  - apply elem_of_loadAllTags. by right.
  - apply matchesQuery_spec. split; [|done].
    intros ->. by apply (CLEAR_TAG_not_vault obj).
Qed.

Lemma vault_tag_is_suggested_witness :
  "#Delta" ∈ getSuggestions
    (loadAllTags codeUnitCompare (Some [("#a", 1); ("Delta", 2)]) ["#a"])
    "ELT".
Proof.
  apply (vault_tag_is_suggested codeUnitCompare
           (Some [("#a", 1); ("Delta", 2)]) ["#a"] "#Delta" "ELT").
  - vm_compute. right. left.
  - discriminate.
  - apply includes_spec. reflexivity.
Defined.

End SuggestionCoverage.

(** * Rendering, the click listener and the stored settings *)

Section SessionCoverage.

(** X15. In a catalog, the entries that are rendered with the mark of a
    recent tag are exactly those of the block that follows the sentinel:
    every entry of that block has the mark, no later entry has it, and the
    sentinel is rendered as the clear option. *)
Theorem renderSuggestion_marks_recent_block (clearLabel : string)
    (localeCompare : string -> string -> Z) (obj : option TagsObject)
    (recency : list string) :
  exists rest,
    loadAllTags localeCompare obj recency =
      CLEAR_TAG :: keptRecent (allVaultTags obj) recency ++ rest
    /\ renderSuggestion clearLabel recency CLEAR_TAG = clearLabel
    /\ Forall (fun tag => renderSuggestion clearLabel recency tag
                          = recentMark +:+ tag)
         (keptRecent (allVaultTags obj) recency)
    /\ Forall (fun tag => renderSuggestion clearLabel recency tag = tag) rest.
Proof.
  eexists. split; [apply loadAllTags_eq|]. split; [reflexivity|].
  assert (forall tag, tag ∈ allVaultTags obj ->
            String.eqb tag CLEAR_TAG = false) as Hne.
  { intros tag Hin. apply String.eqb_neq. intros ->.
    by apply (CLEAR_TAG_not_vault obj). }
  split; apply Forall_forall; intros tag Hin; unfold renderSuggestion.
  - apply keptRecent_elem in Hin as [Hr Hv]. rewrite (Hne tag Hv).
    replace (JsArray.includes recency tag) with true; [done|].
    symmetry. by apply includes_In, list_elem_of_In.
  - rewrite (sort_Permutation localeCompare) in Hin.
    apply remainder_elem in Hin as [Hv Hk]. rewrite (Hne tag Hv).
    replace (JsArray.includes recency tag) with false; [done|].
    symmetry. apply not_true_iff_false. rewrite includes_In, <- list_elem_of_In.
    intros Hr. apply Hk, keptRecent_elem. done.
Qed.

(** X16. A click on a tag element while the cursor's line holds no [#] is
    taken from the other handlers, its default action is prevented, and
    no modal is opened. *)
Theorem onDocumentClick_dead_click {E : Type} `{Editor E} (editor : E)
    (evt : MouseEvent) :
  isTagElement (target evt) = true ->
  noHash (getLine (line (getCursor editor)) editor) ->
  onDocumentClick (Some editor) evt =
    ({| target := target evt;
        defaultPrevented := true;
        propagationStopped := true |}, None).
Proof.
  intros Htag Hn. unfold onDocumentClick. rewrite Htag. f_equal.
  rewrite handleTagClick_locate.
  apply locate_none_iff_noHash with (col := ch (getCursor editor)) in Hn.
  by rewrite Hn.
Qed.

Lemma onDocumentClick_dead_click_witness :
  onDocumentClick
    (Some {| text := "plain words"; cursor := mkPos 0 3 |})
    {| target := {| classList := ["cm-hashtag"]; tagName := "SPAN";
                    attributes := ∅ |};
       defaultPrevented := false; propagationStopped := false |} =
  ({| target := {| classList := ["cm-hashtag"]; tagName := "SPAN";
                   attributes := ∅ |};
      defaultPrevented := true; propagationStopped := true |}, None).
Proof.
  apply (onDocumentClick_dead_click
           {| text := "plain words"; cursor := mkPos 0 3 |}).
  - reflexivity.
  - apply locate_none_iff_noHash. intros col.
    rewrite locate_fallback; reflexivity.
Defined.

Lemma loadSettings_saved (s : MyPluginSettings) :
  loadSettings
    (Some {| stored_recentlyChosenTags := Some (recentlyChosenTags s) |}) = s.
Proof. by destruct s. Qed.

Lemma uiStep_plugin {E : Type} `{Editor E} (s : Session E) ev :
  plugin (uiStep s ev) = plugin s
  \/ savedData (plugin (uiStep s ev)) = Some (settings (plugin (uiStep s ev))).
Proof.
  destruct ev as [tagPosition tag|]; simpl; [|by right].
  destruct (onChooseSuggestion_plugin tagPosition tag s) as [->| ->];
    [by left|by right].
Qed.

(** X17. What a restart finds: after any run of choices and uses of the
    clear button in a session that began with [onload], loading the
    settings again from the host's data gives the settings the session
    ended with. *)
Theorem restart_restores_settings {E : Type} `{Editor E}
    (data : option StoredData) (editor0 : E) (events : list UiEvent) :
  settings
    (onload
       (dataOnDisk data
          (plugin (runEvents events
                     {| editor := editor0; plugin := onload data |})))) =
  settings (plugin (runEvents events
                      {| editor := editor0; plugin := onload data |})).
Proof.
  set (s0 := {| editor := editor0; plugin := onload data |}).
  assert (loadSettings (dataOnDisk data (plugin s0)) = settings (plugin s0))
    as Hinit by reflexivity.
  change (loadSettings (dataOnDisk data (plugin (runEvents events s0))) =
          settings (plugin (runEvents events s0))).
  revert Hinit. generalize s0. clear s0.
  induction events as [|ev events IH]; intros s Hs; [done|].
  apply IH. destruct (uiStep_plugin s ev) as [->|Hsaved]; [done|].
  unfold dataOnDisk. rewrite Hsaved. apply loadSettings_saved.
Qed.

Lemma onChooseSuggestion_plugin_cases {E : Type} `{Editor E}
    (tagPosition : TagPosition) (tag : string) (s : Session E) :
  plugin (snd (onChooseSuggestion tagPosition tag s)) = plugin s
  \/ (fst (onChooseSuggestion tagPosition tag s) = Normal
      /\ tag <> CLEAR_TAG
      /\ plugin (snd (onChooseSuggestion tagPosition tag s)) =
           updateRecentlyChosenTags tag (plugin s)).
Proof.
  unfold onChooseSuggestion, seq, callEditor, callPlugin.
  destruct (String.eqb_spec tag CLEAR_TAG) as [->|Hne].
  - destruct (replaceRange _ _ _ _); simpl; [|by left].
    destruct (setCursor _ _); by left.
  - destruct (replaceRange _ _ _ _); simpl; [|by left].
    destruct (setCursor _ _); simpl; [by right|by left].
Qed.

(** X18. An applier invocation changes the plugin's state only when it
    completes normally for a tag other than the sentinel, and then by one
    recency update: an invocation that throws leaves the recency list
    alone. *)
Theorem onChooseSuggestion_changes_plugin {E : Type} `{Editor E}
    (tagPosition : TagPosition) (tag : string) (s : Session E) :
  plugin (snd (onChooseSuggestion tagPosition tag s)) <> plugin s ->
  fst (onChooseSuggestion tagPosition tag s) = Normal
  /\ tag <> CLEAR_TAG
  /\ plugin (snd (onChooseSuggestion tagPosition tag s)) =
       updateRecentlyChosenTags tag (plugin s).
Proof.
  intros Hch.
  by destruct (onChooseSuggestion_plugin_cases tagPosition tag s) as [?|?].
Qed.

Lemma onChooseSuggestion_changes_plugin_witness :
  fst (onChooseSuggestion (mkSpan 0 2 4) "#long"
         (mkSession "a #b c" (mkPos 0 3) [])) = Normal
  /\ "#long" <> CLEAR_TAG
  /\ plugin (snd (onChooseSuggestion (mkSpan 0 2 4) "#long"
                    (mkSession "a #b c" (mkPos 0 3) []))) =
       updateRecentlyChosenTags "#long"
         (plugin (mkSession "a #b c" (mkPos 0 3) [])).
Proof.
  apply (onChooseSuggestion_changes_plugin (mkSpan 0 2 4) "#long"
           (mkSession "a #b c" (mkPos 0 3) [])).
  discriminate.
Defined.

(** X19. When the editor takes the replacement and then refuses the
    cursor, the invocation throws with the text already replaced and the
    recency list not updated. *)
Theorem onChooseSuggestion_rejected_cursor {E : Type} `{Editor E}
    (tagPosition : TagPosition) (tag : string) (s : Session E) (edited : E) :
  replaceRange (if String.eqb tag CLEAR_TAG then "" else tag)
    (from tagPosition) (to tagPosition) (editor s) = Some edited ->
  setCursor
    (if String.eqb tag CLEAR_TAG then from tagPosition
     else {| line := line (from tagPosition);
             ch := ch (from tagPosition) + JsString.length tag |})
    edited = None ->
  onChooseSuggestion tagPosition tag s =
    (Throw, {| editor := edited; plugin := plugin s |}).
Proof.
  intros Hrep Hcur. unfold onChooseSuggestion, seq, callEditor.
  destruct (String.eqb tag CLEAR_TAG); rewrite Hrep; simpl; by rewrite Hcur.
Qed.

Lemma onChooseSuggestion_rejected_cursor_witness :
  onChooseSuggestion (mkSpan 0 2 7) "#done"
    {| editor := {| pinned := {| text := "x #todo y"; cursor := mkPos 0 4 |} |};
       plugin := {| settings := {| recentlyChosenTags := ["#todo"] |};
                    savedData := None |} |} =
  (Throw,
   {| editor := {| pinned := {| text := "x #done y"; cursor := mkPos 0 4 |} |};
      plugin := {| settings := {| recentlyChosenTags := ["#todo"] |};
                   savedData := None |} |}).
Proof.
  apply (onChooseSuggestion_rejected_cursor (mkSpan 0 2 7) "#done"
           {| editor :=
                {| pinned := {| text := "x #todo y"; cursor := mkPos 0 4 |} |};
              plugin := {| settings := {| recentlyChosenTags := ["#todo"] |};
                           savedData := None |} |}
           {| pinned := {| text := "x #done y"; cursor := mkPos 0 4 |} |});
    reflexivity.
Defined.

Lemma updateRecentTags_elem l tag x :
  x ∈ updateRecentTags l tag -> x ∈ l \/ x = tag.
Proof.
  destruct (updateRecentTags_order l tag) as (kept & -> & Hsub & _).
  rewrite elem_of_app, list_elem_of_singleton. intros [Hin| ->]; [left|by right].
  apply sublist_submseteq in Hsub. by apply (elem_of_submseteq _ _ _ Hin).
Qed.

Lemma runChoices_recency_elem {E : Type} `{Editor E}
    (choices : list (TagPosition * string)) (s : Session E) :
  Forall
    (fun x => x ∈ recentOf (plugin s)
              \/ (x ∈ map snd choices /\ x <> CLEAR_TAG))
    (recentOf (plugin (runChoices choices s))).
Proof.
  apply Forall_forall. revert s.
  induction choices as [|[tagPosition tag] rest IH]; intros s x Hx;
    [by left|].
  apply IH in Hx as [Hx|[Hx Hne]].
  - simpl in Hx.
    destruct (onChooseSuggestion_plugin_cases tagPosition tag s)
      as [He|(_ & Hne & He)].
    + left. by rewrite He in Hx.
    + rewrite He in Hx. unfold recentOf in Hx. simpl in Hx.
      apply updateRecentTags_elem in Hx as [Hx| ->]; [by left|].
      right. split; [left|done].
  - right. split; [by right|done].
Qed.

(** X20. Whatever is chosen, the recency list only ever holds tags it held
    before and tags that were chosen; the sentinel never gets into it. *)
Theorem recency_holds_only_choices {E : Type} `{Editor E}
    (choices : list (TagPosition * string)) (s : Session E) :
  Forall
    (fun x => x ∈ recentOf (plugin s)
              \/ (x ∈ map snd choices /\ x <> CLEAR_TAG))
    (recentOf (plugin (runChoices choices s))).
Proof. intros. eapply runChoices_recency_elem; eassumption. Qed.

(** X21. When every choice is an entry of the suggestions of a modal, every
    tag that gets into the recency list begins with [#]. *)
Theorem recency_tags_begin_with_hash {E : Type} `{Editor E}
    (choices : list (TagPosition * string)) (s : Session E) :
  pickedFromSuggestions choices ->
  Forall
    (fun x => x ∈ recentOf (plugin s) \/ JsString.startsWith x "#" = true)
    (recentOf (plugin (runChoices choices s))).
Proof.
  intros Hpicked. eapply Forall_impl; [apply runChoices_recency_elem|].
  intros x [Hx|[Hx Hne]]; [by left|right]. simpl in Hx.
  apply list_elem_of_fmap in Hx as ([tagPosition tag] & -> & Hin).
  unfold pickedFromSuggestions in Hpicked. rewrite Forall_forall in Hpicked.
  destruct (Hpicked _ Hin) as (lc & obj & recency & query & Hs).
  simpl in *.
  assert (tag ∈ loadAllTags lc obj recency) as Hcat.
  { destruct (String.eqb_spec query "") as [->|Hq]; [done|].
    apply elem_of_getSuggestions in Hs as [[? _]|[? _]]; done. }
  apply elem_of_loadAllTags in Hcat as [?|Hv]; [done|].
  by apply (allVaultTags_hash obj).
Qed.

End SessionCoverage.

Lemma recency_tags_begin_with_hash_witness :
  Forall
    (fun x => x ∈ recentOf (plugin (mkSession "a #b c" (mkPos 0 3) ["#b"]))
              \/ JsString.startsWith x "#" = true)
    (recentOf (plugin (runChoices [(mkSpan 0 2 4, "#long")]
                         (mkSession "a #b c" (mkPos 0 3) ["#b"])))).
Proof.
  apply (recency_tags_begin_with_hash [(mkSpan 0 2 4, "#long")]
           (mkSession "a #b c" (mkPos 0 3) ["#b"])).
  constructor; [|constructor].
  exists codeUnitCompare, (Some [("long", 1)]), ["#b"], "lo".
  vm_compute. left.
Defined.

Section Relocate.

Import JsString TagRegExp.

Lemma tagChars_rest body after :
  tagChars (body +:+ after) = body -> tagChars after = "".
Proof.
  induction body as [|c body IH]; [done|].
  rewrite str_app_cons. simpl. destruct (isTagChar c); [|discriminate].
  intros [= Hb]. by apply IH.
Qed.

Lemma tagChars_app_stop body after :
  tagChars body = body -> tagChars after = "" ->
  tagChars (body +:+ after) = body.
Proof.
  intros Hb Ha. induction body as [|c body IH]; [done|].
  rewrite str_app_cons. simpl in *. destruct (isTagChar c); [|discriminate].
  injection Hb as Hb. by rewrite IH.
Qed.

Lemma isFullTag_before tag after :
  isFullTag tag -> tagChars after = "" -> execTagAt (tag +:+ after) = Some tag.
Proof.
  unfold isFullTag. intros Ht Ha. destruct tag as [|c body]; [discriminate|].
  pose proof (execTagAt_run _ _ _ Ht) as Hrun. injection Hrun as Hrun.
  rewrite str_app_cons. unfold execTagAt in *.
  destruct (charCode c =? 35); [|discriminate].
  rewrite tagChars_app_stop by done.
  destruct body; [|done]. discriminate.
Qed.

(** X22. Replace, then click again: when the located span is replaced by a
    tag of the full pattern, the column at which the applier leaves the
    cursor is resolved to the new tag. *)
Theorem locate_after_replacement (lineText tag : string)
    (col tagStart tagEnd : Z) :
  locate lineText col = Some (tagStart, tagEnd) ->
  isFullTag tag ->
  locate (take (Z.to_nat tagStart) lineText +:+ tag
          +:+ drop (Z.to_nat tagEnd) lineText)
    (tagStart + length tag) =
  Some (tagStart, tagStart + length tag).
Proof.
  intros Hloc Htag.
  apply locate_span_shape in Hloc
    as (before & body & after & -> & Hbody & -> & ->).
  unfold length at 1. rewrite Nat2Z.id, str_take_app_length.
  replace (Z.to_nat (length before + 1 + length body))
    with (String.length (before +:+ String "#" body)).
  2:{ rewrite str_length_app_nat. unfold length. simpl. lia. }
  rewrite <- (str_app_assoc before (String "#" body) after).
  rewrite str_drop_app_length.
  symmetry in Hbody. apply tagChars_rest in Hbody.
  apply locate_occurrence_inside; [by apply isFullTag_before|].
  destruct (execTagAt_Some _ _ Htag) as [_ Hw].
  apply wfTag_length in Hw. lia.
Qed.

Lemma locate_after_replacement_witness :
  locate (take (Z.to_nat 4) "See #project/alpha and #todo" +:+ "#done"
          +:+ drop (Z.to_nat 18) "See #project/alpha and #todo")
    (4 + length "#done") =
  Some (4, 4 + length "#done").
Proof.
  apply (locate_after_replacement "See #project/alpha and #todo" "#done" 6);
    reflexivity.
Defined.

End Relocate.

Section RecencyComposition.

(** X23. In a list of at most 20 tags without repetition, choosing the same
    tag a second time in a row changes nothing. *)
Theorem updateRecentTags_twice (l : list string) (tag : string) :
  NoDup l ->
  (length l <= 20)%nat ->
  updateRecentTags (updateRecentTags l tag) tag = updateRecentTags l tag.
Proof.
  intros Hnd Hlen.
  destruct (updateRecentTags_invariant l tag Hnd Hlen) as [Hnd' Hlen'].
  destruct (updateRecentTags_order l tag) as (kept & He & _ & _).
  rewrite He in *. apply NoDup_app in Hnd' as (_ & Hk & _).
  rewrite (updateRecentTags_present kept [] tag).
  - simpl. rewrite length_app in Hlen'. simpl in Hlen'.
    replace (Z.of_nat (length (kept ++ [tag])) >? 20) with false; [done|].
    symmetry. rewrite Z.gtb_ltb. apply Z.ltb_ge. rewrite length_app. simpl. lia.
  - intros Hin. apply (Hk tag Hin). left.
Qed.

Lemma updateRecentTags_twice_witness :
  updateRecentTags (updateRecentTags ["#a"; "#b"; "#c"] "#b") "#b" =
  updateRecentTags ["#a"; "#b"; "#c"] "#b".
Proof.
  apply (updateRecentTags_twice ["#a"; "#b"; "#c"] "#b").
  - apply (bool_decide_unpack _). vm_compute. exact I.
  - simpl. lia.
Defined.

(** X24. After up to 20 different tags of the vault were chosen one after
    the other, the next catalog lists them right after the sentinel, the
    last chosen first. *)
Theorem last_choices_lead_catalog (localeCompare : string -> string -> Z)
    (obj : option TagsObject) (l chosen : list string) :
  NoDup chosen ->
  (length chosen <= 20)%nat ->
  Forall (fun tag => tag ∈ allVaultTags obj) chosen ->
  exists rest,
    loadAllTags localeCompare obj (fold_left updateRecentTags chosen l) =
    CLEAR_TAG :: rev chosen ++ rest.
Proof.
  intros Hnd Hlen Hv.
  destruct (fold_updateRecentTags_tail l chosen Hnd Hlen) as [older ->].
  rewrite loadAllTags_eq. unfold keptRecent at 1. rewrite rev_app_distr.
  rewrite List.filter_app.
  assert (List.filter (fun tag => bool_decide (tag ∈ allVaultTags obj))
            (rev chosen) = rev chosen) as ->.
  { assert (Forall (fun tag => tag ∈ allVaultTags obj) (rev chosen)) as Hr.
    { apply Forall_forall. intros x Hx%list_elem_of_In%in_rev%list_elem_of_In.
      rewrite Forall_forall in Hv. by apply Hv. }
    induction Hr as [|x xs Hx _ IH]; [done|]. simpl.
    rewrite bool_decide_eq_true_2 by done. by rewrite IH. }
  rewrite <- List.app_assoc. eauto.
Qed.

Lemma last_choices_lead_catalog_witness :
  exists rest,
    loadAllTags codeUnitCompare (Some [("#a", 1); ("#b", 1); ("#c", 1)])
      (fold_left updateRecentTags ["#b"; "#a"] ["#c"; "#b"]) =
    CLEAR_TAG :: rev ["#b"; "#a"] ++ rest.
Proof.
  apply (last_choices_lead_catalog codeUnitCompare
           (Some [("#a", 1); ("#b", 1); ("#c", 1)]) ["#c"; "#b"] ["#b"; "#a"]).
  - apply (bool_decide_unpack _). vm_compute. exact I.
  - simpl. lia.
  - apply (bool_decide_unpack _). vm_compute. exact I.
Defined.

End RecencyComposition.
